(** * genpipeline: coroutine pipelines, their push protocol and failure routing

    A shallow embedding of [genpipeline/__init__.py].  Python generators are
    objects with identity and hidden state; here every generator carries an
    identifier, the references between generators form a static tree (a
    generator receives its targets when it is created and never rebinds
    them), and everything that changes lives in a [world] threaded through
    the calls: which generators have finished, the greenlet of each iterator
    bridge, the contents of the lists that [appender] fills, and a log of
    the protocol calls every generator has received.  Two generators with
    the same identifier are the same object.

    Items are integers.  Exceptions follow Python 3.7 and later: a
    [StopIteration] that escapes a generator body reaches the caller as
    [RuntimeError] (PEP 479).  Of [iter_filter] the branch for generator
    functions (lines 355-375) is modelled; the branch for plain functions
    differs only in forwarding nothing.  The filters on dictionaries
    ([project], [rename], [set_default]), [printer] and [csv_source] are
    left out. *)

From stdpp Require Import gmap strings list fin_maps.
From Stdlib Require Import ZArith Lia.

Open Scope Z_scope.

(** ** Exceptions *)

(** The exceptions the module's control flow distinguishes.  [Failure n] is
    an ordinary [Exception] instance raised by a stage's own logic. *)
Inductive exn :=
| StopIteration
| GeneratorExit
| RuntimeError
| TypeError
| AttributeError
| UnboundLocalError
| Failure (n : nat).

#[global] Instance exn_eq_dec : EqDecision exn.
Proof. solve_decision. Defined.

(** [except Exception]: everything here but [GeneratorExit], which derives
    from [BaseException] only. *)
Definition is_Exception (e : exn) : bool :=
  match e with GeneratorExit => false | _ => true end.

(** ** Protocol calls and the world *)

(** The three operations of a generator object: [send], [throw], [close]. *)
Inductive op :=
| Send (item : Z)
| Throw (e : exn)
| Close.

#[global] Instance op_eq_dec : EqDecision op.
Proof. solve_decision. Defined.

(** What the pull routine wrapped by [iter_filter] does next once the
    outputs it has ready are gone. *)
Inductive cont :=
| KPull (s : list Z)        (* asks its iterator for the next item *)
| KReturn                   (* returns *)
| KRaise (e : exn).         (* raises *)

(** The greenlet [g_consume] of one bridge. *)
Inductive glet :=
| GPull (s : list Z)
    (* parked in [generator()] at [parent.switch(sentinel)] *)
| GEmit (pending : list Z) (k : cont)
    (* parked in [run_target_generator] at [parent.switch(item)] *)
| GDead.

Record world := World {
  finished : gset nat;            (* generators that returned or raised *)
  glets : gmap nat glet;          (* bridge generator -> its greenlet *)
  bound_value : gset nat;         (* bridges whose local [value] is bound *)
  lists : gmap nat (list Z);      (* the lists handed to [appender] *)
  log : list (nat * op);          (* protocol calls received, oldest first *)
  next_id : nat                   (* identity of the next generator *)
}.

Definition empty_world : world := World ∅ ∅ ∅ ∅ [] 0.

(** ** Computations: state and exceptions *)

(** A call returns, raises, or never comes back. *)
Inductive res (A : Type) :=
| Ok (a : A)
| Raise (e : exn)
| Diverge.
Arguments Ok {A} a.
Arguments Raise {A} e.
Arguments Diverge {A}.

(** Computations over a state [S]; [M] is the case of the [world]. *)
Definition ST (S A : Type) : Type := S -> res A * S.
Abbreviation M := (ST world).

Definition ret {S A} (a : A) : ST S A := fun w => (Ok a, w).
Definition raise {S A} (e : exn) : ST S A := fun w => (Raise e, w).
Definition bind {S A B} (c : ST S A) (k : A -> ST S B) : ST S B :=
  fun w => match c w with
           | (Ok a, w') => k a w'
           | (Raise e, w') => (Raise e, w')
           | (Diverge, w') => (Diverge, w')
           end.
(** [try: c except <anything> as e: h e] *)
Definition try_catch {S A} (c : ST S A) (h : exn -> ST S A) : ST S A :=
  fun w => match c w with
           | (Ok a, w') => (Ok a, w')
           | (Raise e, w') => h e w'
           | (Diverge, w') => (Diverge, w')
           end.
(** Run [c] and hand back how it ended. *)
Definition attempt {S A} (c : ST S A) : ST S (A + exn) :=
  fun w => match c w with
           | (Ok a, w') => (Ok (inl a), w')
           | (Raise e, w') => (Ok (inr e), w')
           | (Diverge, w') => (Diverge, w')
           end.
Definition diverge {S A} : ST S A := fun w => (Diverge, w).
Definition get {S} : ST S S := fun w => (Ok w, w).
Definition modify {S} (f : S -> S) : ST S unit := fun w => (Ok tt, f w).

Notation "'let!' x ':=' c 'in' k" := (bind c (fun x => k))
  (at level 10, x name, c at level 100, k at level 200).
Notation "c ';;' k" := (bind c (fun _ => k))
  (at level 100, k at level 200, right associativity).

(** [for x in xs: f x], stopping at the first exception. *)
Fixpoint for_each {S A} (f : A -> ST S unit) (xs : list A) : ST S unit :=
  match xs with
  | [] => ret tt
  | x :: xs' => f x ;; for_each f xs'
  end.

Definition set_finished (i : nat) : M unit :=
  modify (fun w => World ({[i]} ∪ finished w) (glets w) (bound_value w)
                         (lists w) (log w) (next_id w)).
Definition record (i : nat) (o : op) : M unit :=
  modify (fun w => World (finished w) (glets w) (bound_value w)
                         (lists w) (log w ++ [(i, o)]) (next_id w)).
Definition list_append (k : nat) (v : Z) : M unit :=
  modify (fun w => World (finished w) (glets w) (bound_value w)
                         (<[k := default [] (lists w !! k) ++ [v]]> (lists w))
                         (log w) (next_id w)).
Definition set_glet (i : nat) (g : glet) : M unit :=
  modify (fun w => World (finished w) (<[i := g]> (glets w)) (bound_value w)
                         (lists w) (log w) (next_id w)).
Definition set_bound_value (i : nat) : M unit :=
  modify (fun w => World (finished w) (glets w) ({[i]} ∪ bound_value w)
                         (lists w) (log w) (next_id w)).
Definition fresh_id : M nat :=
  fun w => (Ok (next_id w),
            World (finished w) (glets w) (bound_value w)
                  (lists w) (log w) (S (next_id w))).

(** ** Generator objects *)

(** How a generator body leaves a resumption: parked at its next [yield],
    or returned. *)
Inductive inner := Yield | Return.

(** A bound object seen through its three methods. *)
Definition obj : Type := op -> M unit.

(** PEP 479: a [StopIteration] escaping a generator body reaches the caller
    as [RuntimeError]. *)
Definition pep479 {A} (c : M A) : M A :=
  try_catch c (fun e => if decide (e = StopIteration) then raise RuntimeError
                        else raise e).

(** [it.close()] on the wrapped generator, whose body [c] runs with
    [GeneratorExit] raised at its [yield]. *)
Definition it_close (c : M inner) : M unit :=
  let! r := attempt (pep479 c) in
  match r with
  | inl Yield => raise RuntimeError
  | inl Return => ret tt
  | inr e => if decide (e = GeneratorExit) then ret tt else raise e
  end.

(** The two outer handlers of [propagate_exceptions] (lines 227-236):
    an [Exception] is thrown into [kwargs["target"]], whatever that raises
    is dropped, and the exception is raised again; [GeneratorExit] closes
    [kwargs["target"]] and the generator returns. *)
Definition handlers (target : option obj) (c : M inner) : M inner :=
  try_catch c (fun e =>
    if is_Exception e then
      match target with
      | Some t => try_catch (t (Throw e)) (fun _ => ret tt)
      | None => ret tt
      end ;;
      raise e
    else
      match target with
      | Some t => t Close
      | None => ret tt
      end ;;
      ret Return).

Definition closing (o : op) : bool :=
  match o with
  | Close | Throw GeneratorExit => true
  | _ => false
  end.

(** The generator made by [coroutine(propagate_exceptions(f))], parked at
    [s = yield y] (line 198), receiving the call [o].  [body] resumes the
    generator of [f] itself: with an item, with an exception raised at its
    [yield], or ([Close]) with [GeneratorExit] raised there. *)
Definition propagate_exceptions (i : nat) (target : option obj)
    (body : op -> M inner) : obj :=
  fun o =>
    record i o ;;
    let! w := get in
    if decide (i ∈ finished w) then
      match o with
      | Send _ => raise StopIteration
      | Throw e => raise e
      | Close => ret tt
      end
    else
      let it_call :=
        if closing o then it_close (body Close) ;; raise GeneratorExit
        else pep479 (body o) in
      let! r := attempt (pep479 (handlers target it_call)) in
      match r with
      | inl Yield =>
          match o with Close => raise RuntimeError | _ => ret tt end
      | inl Return =>
          set_finished i ;;
          match o with Close => ret tt | _ => raise StopIteration end
      | inr e =>
          set_finished i ;;
          match o with
          | Close => if decide (e = GeneratorExit) then ret tt else raise e
          | _ => raise e
          end
      end.

(** ** The pull routine behind an iterator bridge *)

(** The function decorated by [iter_filter], a generator function reading
    the iterator it is given, as a resumable machine over its local state
    (a [list Z]).  Each reaction is the outputs it yields, in order, and
    what it does after them.  Once its iterator has raised or ended, that
    iterator is exhausted and the routine cannot park on it again.  A
    routine that returns while its input still flows is not covered: the
    forwarding loop of lines 370-373 then never meets the sentinel again. *)
Record pullfn := PullFn {
  start : list Z * (list Z + exn);
    (* up to the first [next()]: outputs, then local state or a raise *)
  on_item : list Z -> Z -> list Z * (list Z + exn);
    (* [next()] returned an item *)
  on_error : list Z -> exn -> list Z * exn;
    (* [next()] raised what [throw] injected *)
  on_end : list Z -> list Z * option exn
    (* [next()] raised [StopIteration]: cleanup, then return or raise *)
}.

(** A pass-through routine: [for x in it: yield x]. *)
Definition passthrough : pullfn :=
  PullFn ([], inl []) (fun s v => ([v], inl s))
         (fun _ e => ([], e)) (fun _ => ([], None)).

(** What [g_consume.switch(...)] hands back to the bridge. *)
Inductive switched :=
| Sentinel
| Value (v : Z)
| Other.    (* neither: [None] of a finished greenlet, an echoed argument *)

(** What the bridge passes into the greenlet. *)
Inductive resume_with :=
| RNothing                  (* [switch()] *)
| RItem (v : Z)             (* [switch(item)] *)
| RExit                     (* [switch(e)], [e] the [GeneratorExit] *)
| RThrow (e : exn).         (* [throw(e)] *)

Definition next_cont (n : list Z + exn) : cont :=
  match n with inl s => KPull s | inr e => KRaise e end.
Definition end_cont (r : option exn) : cont :=
  match r with None => KReturn | Some e => KRaise e end.

(** The routine runs on to its next suspension. *)
Definition run_on (i : nat) (pending : list Z) (k : cont) : M switched :=
  match pending with
  | o :: rest => set_glet i (GEmit rest k) ;; ret (Value o)
  | [] =>
      match k with
      | KPull s => set_glet i (GPull s) ;; ret Sentinel
      | KReturn => set_glet i GDead ;; ret Other
      | KRaise e => set_glet i GDead ;; raise e
      end
  end.

(** [g_consume.switch(x)] and [g_consume.throw(e)].  A dead greenlet hands
    its argument straight back; a greenlet that was never started is
    treated alike.  The bridge calls [switch()] only after a value that was
    not the sentinel, when the greenlet is parked at an output, so the case
    of [switch()] into a pending [next()] does not arise; it is given the
    answer of the dead greenlet. *)
Definition resume (fn : pullfn) (i : nat) (x : resume_with) : M switched :=
  let! w := get in
  match default GDead (glets w !! i), x with
  | GPull s, RItem v =>
      let (outs, n) := on_item fn s v in run_on i outs (next_cont n)
  | GPull s, RExit =>
      let (outs, r) := on_end fn s in run_on i outs (end_cont r)
  | GPull s, RThrow e =>
      let (outs, e') := on_error fn s e in run_on i outs (KRaise e')
  | GPull s, RNothing => ret Other
  | GEmit pending k, RThrow e => set_glet i GDead ;; raise e
  | GEmit pending k, _ => run_on i pending k
  | GDead, RItem v => ret (Value v)
  | GDead, RThrow e => raise e
  | GDead, _ => ret Other
  end.

Definition send_opt (target : option obj) (v : Z) : M unit :=
  match target with Some t => t (Send v) | None => ret tt end.

Definition pending_of (w : world) (i : nat) : list Z :=
  match glets w !! i with Some (GEmit p _) => p | _ => [] end.

(** Lines 370-373: [while value is not sentinel: ...].  The loop runs once
    per output the greenlet still holds, which [budget] counts.  A value
    that is neither an item nor the sentinel comes from a greenlet that is
    gone, and so does every value after it: the loop does not end. *)
Fixpoint forward (fn : pullfn) (i : nat) (target : option obj)
    (budget : list Z) (value : switched) : M unit :=
  match value with
  | Sentinel => ret tt
  | Other => diverge
  | Value v =>
      send_opt target v ;;
      let! value' := resume fn i RNothing in
      match budget with
      | _ :: budget' => forward fn i target budget' value'
      | [] => match value' with Sentinel => ret tt | _ => diverge end
      end
  end.

(** The body of [iter_filter]'s [wrapped] for a generator function [fn]
    (lines 360-375), resumed at [item = (yield)]. *)
Definition iter_filter (fn : pullfn) (i : nat) (target : option obj)
    (o : op) : M inner :=
  try_catch
    match o with
    | Send item =>
        let! value := resume fn i (RItem item) in
        set_bound_value i ;;
        let! w := get in
        forward fn i target (pending_of w i) value ;;
        ret Yield
    | Throw e =>
        if is_Exception e then
          resume fn i (RThrow e) ;;
          let! w := get in
          if decide (i ∈ bound_value w) then ret Yield
          else raise UnboundLocalError
        else raise e
    | Close => raise GeneratorExit
    end
    (fun e => if decide (e = GeneratorExit)
              then resume fn i RExit ;; ret Return
              else raise e).

(** Lines 357-358: the greenlet is made and run to its first suspension;
    what it hands back is dropped. *)
Definition bridge_start (fn : pullfn) (i : nat) : M unit :=
  let (outs, n) := start fn in
  run_on i outs (next_cont n) ;; ret tt.

(** ** The filters *)

(** [try: x.throw(e) except StopIteration: pass] *)
Definition throw_tolerant (x : obj) (e : exn) : M unit :=
  try_catch (x (Throw e))
            (fun e' => if decide (e' = StopIteration) then ret tt
                       else raise e').

(** [target.send(v)] where the function does not test [target]: on [None]
    the attribute lookup fails. *)
Definition send_req (target : option obj) (v : Z) : M unit :=
  match target with Some t => t (Send v) | None => raise AttributeError end.

(** [appender(output, target=None)], lines 469-473. *)
Definition appender (output : nat) (target : option obj) (o : op)
  : M inner :=
  match o with
  | Send item => list_append output item ;; send_opt target item ;; ret Yield
  | Throw e => raise e
  | Close => raise GeneratorExit
  end.

(** [null()], lines 480-481. *)
Definition null (o : op) : M inner :=
  match o with
  | Send _ => ret Yield
  | Throw e => raise e
  | Close => raise GeneratorExit
  end.

(** A filter of the shape of the docstring's [double] and [add2] (and of
    [project]): [item = (yield); target.send(f(item))], where computing
    [f(item)] may raise. *)
Definition transform_body (f : Z -> exn + Z) (target : option obj) (o : op)
  : M inner :=
  match o with
  | Send item =>
      match f item with
      | inl e => raise e
      | inr value => send_req target value ;; ret Yield
      end
  | Throw e => raise e
  | Close => raise GeneratorExit
  end.

(** The docstring's [append(last, target)], lines 69-75: forwards every
    item, and on [GeneratorExit] sends [last] and returns. *)
Definition append (last : Z) (target : option obj) (o : op) : M inner :=
  try_catch
    match o with
    | Send item => send_req target item ;; ret Yield
    | Throw e => raise e
    | Close => raise GeneratorExit
    end
    (fun e => if decide (e = GeneratorExit)
              then send_req target last ;; ret Return
              else raise e).

(** [broadcast], lines 419-448, over its positional [targets].  Targets
    are compared by identity ([target != ex_target]). *)
Definition broadcast (targets : list (nat * obj)) (o : op) : M inner :=
  try_catch
    match o with
    | Throw e =>
        if is_Exception e then
          for_each (fun target => throw_tolerant target.2 e) targets ;;
          raise e
        else raise e
    | Close => raise GeneratorExit
    | Send item =>
        for_each (fun target =>
          try_catch (target.2 (Send item)) (fun e =>
            if is_Exception e then
              for_each (fun ex_target =>
                if decide (target.1 ≠ ex_target.1)
                then throw_tolerant ex_target.2 e
                else ret tt) targets ;;
              raise e
            else raise e)) targets ;;
        ret Yield
    end
    (fun e => if decide (e = GeneratorExit)
              then for_each (fun target => target.2 Close) targets ;;
                   ret Return
              else raise e).

(** The decorated functions with their positional configuration. *)
Inductive routine :=
| Appender (output : nat)
| Null
| Transform (f : Z -> exn + Z)
| Append (last : Z)
| IterFilter (fn : pullfn).

(** A generator object: its identity, what it runs, and the objects it
    holds.  [Filter i r target] was made with [kwargs["target"] = target];
    [Broadcast i targets] holds its targets as positional arguments and has
    no [target] keyword. *)
#[local] Unset Elimination Schemes.
Inductive gen :=
| Filter (i : nat) (r : routine) (target : option gen)
| Broadcast (i : nat) (targets : list gen).
#[local] Set Elimination Schemes.

Definition gen_id (g : gen) : nat :=
  match g with Filter i _ _ | Broadcast i _ => i end.

Definition filter_body (r : routine) (i : nat) (target : option obj)
  : op -> M inner :=
  match r with
  | Appender output => appender output target
  | Null => null
  | Transform f => transform_body f target
  | Append last => append last target
  | IterFilter fn => iter_filter fn i target
  end.

(** The methods of a generator object. *)
Fixpoint call (g : gen) : obj :=
  match g with
  | Filter i r t =>
      let target := match t with Some g' => Some (call g') | None => None end in
      propagate_exceptions i target (filter_body r i target)
  | Broadcast i ts =>
      propagate_exceptions i None
        (broadcast (map (fun t => (gen_id t, call t)) ts))
  end.

Definition double : routine := Transform (fun item => inr (item * 2)).

(** ** Descriptors and resolution *)

(** What [pipefilter] wrapped, with the positional arguments it was called
    with.  The targets of [broadcast] are taken as bound generators: a
    [Pipe] or [PipeElement] passed there binds itself at its first call and
    hands every call on to its generator from then on (see [spec_call]). *)
Inductive callee :=
| FRoutine (r : routine)
| FBroadcast (targets : list gen).

(** Binding the arguments to the parameters of the function, at the first
    [next()].  Positional configuration sits in the [callee]; of the
    keywords only [target] names a parameter, [null] and [broadcast] have
    no such parameter, and [append] and [double] require it. *)
Definition check_call (fn : callee) (kwargs : gmap string gen) : M unit :=
  if decide (dom kwargs ⊆ ({["target"]} : gset string)) then
    match fn, kwargs !! "target" with
    | FRoutine Null, Some _ | FBroadcast _, Some _ => raise TypeError
    | FRoutine (Append _), None | FRoutine (Transform _), None =>
        raise TypeError
    | _, _ => ret tt
    end
  else raise TypeError.

(** Calling [coroutine(propagate_exceptions(f))] with the descriptor's
    arguments: the generator is made and advanced to its first [yield],
    under the handlers of lines 227-236. *)
Definition coroutine (fn : callee) (kwargs : gmap string gen) : M gen :=
  let! i := fresh_id in
  let target := kwargs !! "target" in
  let tobj := match target with Some t => Some (call t) | None => None end in
  let first_run :=
    check_call fn kwargs ;;
    match fn with
    | FRoutine (IterFilter f) => bridge_start f i
    | _ => ret tt
    end ;;
    ret Yield in
  let! r := attempt (pep479 (handlers tobj first_run)) in
  match r with
  | inl Yield =>
      ret match fn with
          | FRoutine r => Filter i r target
          | FBroadcast ts => Broadcast i ts
          end
  | inl Return => set_finished i ;; raise StopIteration
  | inr e => set_finished i ;; raise e
  end.

(** [PipeElement] and [Pipe].  [bound] stands for the instance attributes
    [send], [throw] and [close] that [resolve] sets: the generator whose
    methods they are. *)
Inductive spec :=
| PipeElement (fn : callee) (kwargs : gmap string gen) (bound : option gen)
| Pipe (lhs rhs : spec) (bound : option gen).

Definition spec_bound (s : spec) : option gen :=
  match s with PipeElement _ _ b | Pipe _ _ b => b end.

(** [PipeElement.resolve] (lines 295-302) and [Pipe.resolve] (lines
    263-268).  The descriptor is a mutable object: what [resolve] has
    written into it stays written when a later step raises. *)
Fixpoint resolve (s : spec) (target : option gen) (w : world)
  : res gen * spec * world :=
  match s with
  | PipeElement fn kwargs bound =>
      let kwargs' := match target with
                     | Some t => <["target" := t]> kwargs
                     | None => kwargs
                     end in
      match coroutine fn kwargs' w with
      | (Ok g, w') => (Ok g, PipeElement fn kwargs' (Some g), w')
      | (Raise e, w') => (Raise e, PipeElement fn kwargs' bound, w')
      | (Diverge, w') => (Diverge, PipeElement fn kwargs' bound, w')
      end
  | Pipe lhs rhs bound =>
      match resolve rhs target w with
      | (Ok r, rhs', w1) =>
          match resolve lhs (Some r) w1 with
          | (Ok l, lhs', w2) => (Ok l, Pipe lhs' rhs' (Some l), w2)
          | (Raise e, lhs', w2) => (Raise e, Pipe lhs' rhs' bound, w2)
          | (Diverge, lhs', w2) => (Diverge, Pipe lhs' rhs' bound, w2)
          end
      | (Raise e, rhs', w1) => (Raise e, Pipe lhs rhs' bound, w1)
      | (Diverge, rhs', w1) => (Diverge, Pipe lhs rhs' bound, w1)
      end
  end.

(** Computations that also hold one descriptor. *)
Abbreviation SM := (ST (spec * world)).

Definition on_world {A} (c : M A) : SM A :=
  fun sw => let (r, w') := c sw.2 in (r, (sw.1, w')).
Definition resolve_self (target : option gen) : SM gen :=
  fun sw => let '(r, s', w') := resolve sw.1 target sw.2 in (r, (s', w')).

(** [send], [throw] and [close] of a descriptor (lines 270-280, 304-314):
    the class methods resolve without a target and call again, which then
    finds the instance attribute; once [resolve] has run, the instance
    attribute is found at once. *)
Definition spec_call (o : op) : SM unit :=
  let! sw := get in
  match spec_bound sw.1 with
  | Some g => on_world (call g o)
  | None => let! g := resolve_self None in on_world (call g o)
  end.

(** [iter_source(values, target)], lines 402-412. *)
Definition iter_source (values : list Z) : SM unit :=
  try_catch (for_each (fun i => spec_call (Send i)) values)
    (fun e =>
       if is_Exception e then
         try_catch (spec_call (Throw e))
           (fun e' => if decide (e' = StopIteration) then ret tt
                      else raise e') ;;
         raise e
       else raise e) ;;
  spec_call Close.

(** [PipeSource.__or__] for [iter_source] (lines 246-249). *)
Definition source_or (values : list Z) : SM unit :=
  iter_source values ;; spec_call Close.

(** ** Observations *)

(** The protocol calls generator [j] has received, oldest first. *)
Definition received (j : nat) (w : world) : list op :=
  omap (fun ev : nat * op => if decide (ev.1 = j) then Some ev.2 else None)
       (log w).

(** The world with one more call in its log. *)
Definition logged (i : nat) (o : op) (w : world) : world :=
  World (finished w) (glets w) (bound_value w) (lists w)
        (log w ++ [(i, o)]) (next_id w).

(** The identities of a generator and of everything it holds. *)
Fixpoint gen_ids (g : gen) : list nat :=
  match g with
  | Filter i _ t =>
      i :: match t with Some g' => gen_ids g' | None => [] end
  | Broadcast i ts => i :: concat (map gen_ids ts)
  end.

(** The keyword configuration a [PipeElement] stores. *)
Definition spec_kwargs (s : spec) : gmap string gen :=
  match s with PipeElement _ kwargs _ => kwargs | Pipe _ _ _ => ∅ end.

(** A default stage: one of the filters whose body lets an exception
    raised at its [yield] go by. *)
Definition default_routine (r : routine) : bool :=
  match r with
  | Appender _ | Null | Transform _ | Append _ => true
  | IterFilter _ => false
  end.

(** A failure: an exception that is not one of the two signals of the
    generator protocol itself. *)
Definition is_failure (e : exn) : bool :=
  match e with
  | StopIteration | GeneratorExit => false
  | _ => true
  end.

(** A filter without cleanup of its own on [GeneratorExit]. *)
Definition plain_routine (r : routine) : bool :=
  match r with
  | Appender _ | Null | Transform _ => true
  | Append _ | IterFilter _ => false
  end.

(** How [close()] ends once the forwarding of finalize has ended with
    [x]: the generator is finished; an exception out of the forwarding
    reaches the caller, [StopIteration] as [RuntimeError] (PEP 479), and
    [GeneratorExit] counts as a clean exit. *)
Definition finish_close (i : nat) (x : unit + exn) : M unit :=
  set_finished i ;;
  match x with
  | inl _ => ret tt
  | inr e =>
      if decide (e = GeneratorExit) then ret tt
      else if decide (e = StopIteration) then raise RuntimeError
      else raise e
  end.

Definition close_opt (t : option gen) : M unit :=
  match t with Some g => call g Close | None => ret tt end.

(** The greenlet of a bridge after [finalize()], when the routine answers
    the end of its input with [outs] and then [r]: parked for good behind
    its first output, or ended if there was none. *)
Definition abandoned (outs : list Z) (r : option exn) : glet :=
  match outs with
  | _ :: rest => GEmit rest (end_cont r)
  | [] => GDead
  end.

(** The world of a bridge [i] whose greenlet is [g] and whose [value] is
    bound. *)
Definition parked (i : nat) (g : glet) (w : world) : world :=
  World (finished w) (<[i := g]> (glets w)) ({[i]} ∪ bound_value w)
        (lists w) (log w) (next_id w).

(** A change to the world that touches only what belongs to one bridge:
    [fg] acts on the greenlets, [fb] on the set of bridges whose [value]
    is bound. *)
Definition frame (fg : gmap nat glet -> gmap nat glet)
    (fb : gset nat -> gset nat) (w : world) : world :=
  World (finished w) (fg (glets w)) (fb (bound_value w))
        (lists w) (log w) (next_id w).

(** A computation that neither sees nor undoes such a change. *)
Definition framed (fg : gmap nat glet -> gmap nat glet)
    (fb : gset nat -> gset nat) {A} (c : M A) : Prop :=
  forall w, c (frame fg fb w) = ((c w).1, frame fg fb (c w).2).

(** An object all of whose methods are framed. *)
Definition framed_obj (fg : gmap nat glet -> gmap nat glet)
    (fb : gset nat -> gset nat) (t : obj) : Prop :=
  forall o, framed fg fb (t o).
Definition framed_target (fg : gmap nat glet -> gmap nat glet)
    (fb : gset nat -> gset nat) (t : option obj) : Prop :=
  match t with Some x => framed_obj fg fb x | None => True end.

(** ** Scenarios *)

(** A descriptor as [pipefilter] returns it: no keywords, not resolved. *)
Definition element (r : routine) : spec := PipeElement (FRoutine r) ∅ None.

(** A filter of the docstring's shape whose own logic raises on one item. *)
Definition rejecting (bad : Z) (n : nat) : routine :=
  Transform (fun item => if decide (item = bad) then inl (Failure n)
                         else inr item).

(** A routine that reads its whole input first and yields it afterwards:
    [buf = list(it)], then [for x in buf: yield x]. *)
Definition buffering : pullfn :=
  PullFn ([], inl []) (fun s v => ([], inl (s ++ [v])))
         (fun _ e => ([], e)) (fun s => (s, None)).

(** A collecting sink and a bridge over [fn] in front of it. *)
Definition sink (j output : nat) : gen := Filter j (Appender output) None.
Definition bridge (fn : pullfn) (i j output : nat) : gen :=
  Filter i (IterFilter fn) (Some (sink j output)).

(** [append(99) | double() | appender(output)], as [|] builds it. *)
Definition append_double_collect (output : nat) : spec :=
  Pipe (Pipe (element (Append 99)) (element double) None)
       (element (Appender output)) None.

(** A broadcast over [rejecting 5 | appender], [appender], [appender];
    the generators get the identities 0 to 4 in this order. *)
Definition three_way : M gen :=
  let! s0 := coroutine (FRoutine (Appender 10)) ∅ in
  let! t0 := coroutine (FRoutine (rejecting 5 0)) {["target" := s0]} in
  let! t1 := coroutine (FRoutine (Appender 11)) ∅ in
  let! t2 := coroutine (FRoutine (Appender 12)) ∅ in
  coroutine (FBroadcast [t0; t1; t2]) ∅.

(** [deliver(5)] on [three_way]. *)
Definition deliver_three_way : M unit :=
  let! b := three_way in call b (Send 5).

(** A pass-through bridge in front of a collecting sink (identities 0
    for the sink, 1 for the bridge). *)
Definition bridged_sink : M gen :=
  let! sink := coroutine (FRoutine (Appender 10)) ∅ in
  coroutine (FRoutine (IterFilter passthrough)) {["target" := sink]}.

(** [deliver(1)], [deliver(2)], [deliver(3)], [finalize()] on
    [bridged_sink]. *)
Definition bridge_123 : M unit :=
  let! b := bridged_sink in
  call b (Send 1) ;; call b (Send 2) ;; call b (Send 3) ;; call b Close.

(** [appender | append(99) | rejecting 99]: identities 0 (last) to 2. *)
Definition cleanup_chain : M gen :=
  let! t := coroutine (FRoutine (Appender 10)) ∅ in
  let! r := coroutine (FRoutine (rejecting 99 0)) {["target" := t]} in
  let! a := coroutine (FRoutine (Append 99)) {["target" := r]} in
  coroutine (FRoutine (Appender 11)) {["target" := a]}.

(** A broadcast over [append(99) | rejecting 99 | appender] and a second
    sink; identities 0-2 for the first branch, 3 for the second, 4 for the
    broadcast. *)
Definition cleanup_fan : M gen :=
  let! t := coroutine (FRoutine (Appender 10)) ∅ in
  let! r := coroutine (FRoutine (rejecting 99 0)) {["target" := t]} in
  let! a := coroutine (FRoutine (Append 99)) {["target" := r]} in
  let! b := coroutine (FRoutine (Appender 11)) ∅ in
  coroutine (FBroadcast [a; b]) ∅.

(** [finalize()] on [cleanup_chain] and on [cleanup_fan]. *)
Definition finalize_cleanup_chain : M unit :=
  let! g := cleanup_chain in call g Close.
Definition finalize_cleanup_fan : M unit :=
  let! g := cleanup_fan in call g Close.

(** [appender | appender]: identity 0 downstream, 1 upstream. *)
Definition two_stage : M gen :=
  let! t := coroutine (FRoutine (Appender 10)) ∅ in
  coroutine (FRoutine (Appender 11)) {["target" := t]}.

(** The stage [appender | appender] of [two_stage], identity 1 over 0. *)
Definition two_stage_gen : gen :=
  Filter 1 (Appender 11) (Some (Filter 0 (Appender 10) None)).

(** [fail(error)] on [two_stage]. *)
Definition fail_two_stage : M unit :=
  let! g := two_stage in call g (Throw (Failure 0)).

(** [fail(error)] on [two_stage], then [finalize()]. *)
Definition fail_then_finalize : M unit :=
  let! g := two_stage in
  attempt (call g (Throw (Failure 0))) ;;
  call g Close.

(** A broadcast over [rejecting 5 | appender] and [appender] (identities
    0 to 3 in the order of creation), sent the item 5. *)
Definition deliver_two_way : M unit :=
  let! s0 := coroutine (FRoutine (Appender 10)) ∅ in
  let! t0 := coroutine (FRoutine (rejecting 5 0)) {["target" := s0]} in
  let! t1 := coroutine (FRoutine (Appender 11)) ∅ in
  let! b := coroutine (FBroadcast [t0; t1]) ∅ in
  call b (Send 5).

(** ** Chains *)

(** The generators of a linear pipeline [s1 | s2 | ... | tail], given the
    identity and the routine of each stage, head first. *)
Fixpoint chain (stages : list (nat * routine)) (tail : option gen)
  : option gen :=
  match stages with
  | [] => tail
  | (i, r) :: rest => Some (Filter i r (chain rest tail))
  end.

(** [call] on a generator that may be absent ([None] as a target). *)
Definition call_opt (t : option gen) (o : op) : M unit :=
  match t with Some g => call g o | None => ret tt end.

(** The finished set once the generators [ids] have all terminated, the
    last of the list first. *)
Definition finish_all (ids : list nat) (F : gset nat) : gset nat :=
  foldr (fun j acc => {[j]} ∪ acc) F ids.

(** The world after the calls [evs] have been recorded. *)
Definition logged_all (evs : list (nat * op)) (w : world) : world :=
  World (finished w) (glets w) (bound_value w) (lists w)
        (log w ++ evs) (next_id w).

(** The world after the generators [ids] have all terminated. *)
Definition finished_all (ids : list nat) (w : world) : world :=
  World (finish_all ids (finished w)) (glets w) (bound_value w) (lists w)
        (log w) (next_id w).

(** The value a chain of transforms makes of [x], or the failure of the
    first transform that raises. *)
Fixpoint pipe_through (fs : list (Z -> exn + Z)) (x : Z) : exn + Z :=
  match fs with
  | [] => inr x
  | f :: fs' =>
      match f x with
      | inl e => inl e
      | inr y => pipe_through fs' y
      end
  end.

(** The [send] calls an item causes down a chain of transforms, each with
    the value made so far, up to and including the stage that raises. *)
Fixpoint sends_through (stages : list (nat * (Z -> exn + Z))) (x : Z)
  : list (nat * op) :=
  match stages with
  | [] => []
  | (i, f) :: rest =>
      (i, Send x) :: match f x with
                     | inl _ => []
                     | inr y => sends_through rest y
                     end
  end.

Definition transforms (stages : list (nat * (Z -> exn + Z)))
  : list (nat * routine) :=
  map (fun s => (s.1, Transform s.2)) stages.


(** [rejecting 1 | appender(output)] and the generators it resolves to in
    a fresh world. *)
Definition reject_collect (output : nat) : spec :=
  Pipe (element (rejecting 1 0)) (element (Appender output)) None.
Definition reject_collect_gen (output : nat) : gen :=
  Filter 1 (rejecting 1 0) (Some (Filter 0 (Appender output) None)).

(** The functions without a [target] parameter: [null()] and
    [broadcast] with its positional targets only. *)
Definition takes_no_target (fn : callee) : bool :=
  match fn with
  | FRoutine Null | FBroadcast _ => true
  | _ => false
  end.

(** A routine that yields a header before it reads its input:
    [yield 0], then [for x in it: yield x]. *)
Definition with_header : pullfn :=
  PullFn ([0], inl []) (fun s v => ([v], inl s))
         (fun _ e => ([], e)) (fun _ => ([], None)).

(** A routine that answers a failure of its input with a marker:
    [try: for x in it: yield x] / [except Exception: yield -1; raise]. *)
Definition recovering : pullfn :=
  PullFn ([], inl []) (fun s v => ([v], inl s))
         (fun _ e => ([-1], e)) (fun _ => ([], None)).

(** ** Dictionary filters

    The items of [project], [rename], [rename_regexp] and [set_default]
    are Python dicts, rows with string keys as [csv_source] produces them.
    A row is a finite map from keys to values; the outcome of one turn of
    a filter's loop, the row it sends to its target, is given as a
    function of the row it received.  [project] and [rename_regexp] build
    a new dict, [rename] and [set_default] update the row they received
    in place.  A [KeyError] that leaves the loop is the second outcome. *)

Inductive pyval :=
| PyNone
| PyInt (n : Z)
| PyStr (s : string).

Abbreviation dict := (gmap string pyval).

Inductive keyed (A : Type) :=
| Found (a : A)
| KeyError (k : pyval).
Arguments Found {A} a.
Arguments KeyError {A} k.

Definition and_then {A B : Type} (r : keyed A) (k : A -> keyed B) : keyed B :=
  match r with
  | Found a => k a
  | KeyError e => KeyError e
  end.

(** [data[k]], [data.pop(k)] and [data.get(k)]. *)
Definition getitem (data : dict) (k : pyval) : keyed pyval :=
  match k with
  | PyStr s => match data !! s with
               | Some v => Found v
               | None => KeyError k
               end
  | _ => KeyError k
  end.

Definition dict_pop (data : dict) (k : string) : keyed (pyval * dict) :=
  match data !! k with
  | Some v => Found (v, delete k data)
  | None => KeyError (PyStr k)
  end.

Definition dict_get (data : dict) (k : string) : pyval :=
  default PyNone (data !! k).

Definition is_None (v : pyval) : bool :=
  match v with PyNone => true | _ => false end.

(** [project] (line 490): the comprehension over [data.items()]. *)
Definition project (keys : list string) (data : dict) : dict :=
  filter (fun kv => kv.1 ∈ keys) data.

(** [rename] (lines 503-509): the renames are carried out one after the
    other on the row; a rename whose old name is missing is skipped, with
    a warning that names the rename and the row unless [quiet]. *)
Definition warning : Type := string * string * dict.

Fixpoint rename (renames : list (string * string)) (quiet : bool)
    (data : dict) : dict * list warning :=
  match renames with
  | [] => (data, [])
  | (old_name, new_name) :: rest =>
      match dict_pop data old_name with
      | Found (v, data') => rename rest quiet (<[new_name := v]> data')
      | KeyError _ =>
          let (out, ws) := rename rest quiet data in
          (out, if quiet then ws else (old_name, new_name, data) :: ws)
      end
  end.

(** [set_default] (lines 558-580): the body for one key, the loop over a
    list or tuple of keys, and the choice between the two. *)
Definition set_default_key (default : pyval) (default_is_key : bool)
    (key : string) (data : dict) : keyed dict :=
  if is_None (dict_get data key) then
    if default_is_key then
      match getitem data default with
      | Found v => Found (<[key := v]> data)
      | KeyError k => KeyError k
      end
    else Found (<[key := default]> data)
  else Found data.

Fixpoint set_default_keys (default : pyval) (default_is_key : bool)
    (keys : list string) (data : dict) : keyed dict :=
  match keys with
  | [] => Found data
  | key :: rest =>
      match set_default_key default default_is_key key data with
      | Found data' => set_default_keys default default_is_key rest data'
      | KeyError k => KeyError k
      end
  end.

Definition set_default (value : string + list string) (default : pyval)
    (default_is_key : bool) (data : dict) : keyed dict :=
  match value with
  | inr keys => set_default_keys default default_is_key keys data
  | inl key => set_default_key default default_is_key key data
  end.

(** [rename_regexp] (lines 521-546).  A compiled rename is its pattern
    and the function [regexp.sub(substitution, _)] on keys.  The row is
    given by its items in iteration order, [pending_renames] is a dict
    too, in insertion order: [assign] is [d[k] = v] on it. *)
Record regexp_rename := RegexpRename {
  pattern : string;
  sub : string -> string
}.

Fixpoint assign {V : Type} (d : list (string * V)) (k : string) (v : V) :
    list (string * V) :=
  match d with
  | [] => [(k, v)]
  | (k', v') :: rest =>
      if decide (k' = k) then (k', v) :: rest else (k', v') :: assign rest k v
  end.

(** Lines 528-535 for one rename, lines 527-535 for all of them. *)
Fixpoint scan (r : regexp_rename) (quiet : bool) (keys : list string)
    (pending_renames : list (string * string)) (ws : list string) :
    list (string * string) * list string :=
  match keys with
  | [] => (pending_renames, ws)
  | key :: rest =>
      let substituted := sub r key in
      if decide (substituted = key) then scan r quiet rest pending_renames ws
      else if negb quiet && bool_decide (key ∈ pending_renames.*1) then
        scan r quiet rest pending_renames (ws ++ [pattern r])
      else scan r quiet rest (assign pending_renames key substituted) ws
  end.

Fixpoint scan_all (renames : list regexp_rename) (quiet : bool)
    (keys : list string) (pending_renames : list (string * string))
    (ws : list string) : list (string * string) * list string :=
  match renames with
  | [] => (pending_renames, ws)
  | r :: rest =>
      let (pending_renames', ws') := scan r quiet keys pending_renames ws in
      scan_all rest quiet keys pending_renames' ws'
  end.

(** Lines 538-539, 540-542 and 543-544.  The last loop runs over a set,
    in no particular order: it assigns to distinct keys, the order has no
    effect on the finite map. *)
Fixpoint copy_renamed (data : dict) (pending_renames : list (string * string))
    (new_data : dict) : keyed dict :=
  match pending_renames with
  | [] => Found new_data
  | (old_name, new_name) :: rest =>
      and_then (getitem data (PyStr old_name)) (fun v =>
      copy_renamed data rest (<[new_name := v]> new_data))
  end.

Fixpoint pop_renamed (olds : list string) (values : list string)
    (new_data : dict) : keyed dict :=
  match olds with
  | [] => Found new_data
  | old_name :: rest =>
      if decide (old_name ∈ values) then pop_renamed rest values new_data
      else and_then (dict_pop new_data old_name) (fun r =>
           pop_renamed rest values r.2)
  end.

Fixpoint copy_kept (data : dict) (kept : list string) (new_data : dict) :
    keyed dict :=
  match kept with
  | [] => Found new_data
  | key :: rest =>
      and_then (getitem data (PyStr key)) (fun v =>
      copy_kept data rest (<[key := v]> new_data))
  end.

Definition rename_regexp (renames : list regexp_rename) (quiet : bool)
    (items : list (string * pyval)) : keyed dict * list string :=
  let data : dict := list_to_map items in
  let (pending_renames, ws) := scan_all renames quiet items.*1 [] [] in
  (and_then (copy_renamed data pending_renames data) (fun new_data =>
   and_then (pop_renamed pending_renames.*1 pending_renames.*2 new_data)
     (fun new_data =>
   copy_kept data (filter (fun key => key ∉ pending_renames.*1) items.*1)
     new_data)),
   ws).

(** *** Observations on rows *)

(** The keys [set_default] looks at, and the value it puts where one of
    them has none. *)
Definition named (value : string + list string) : list string :=
  match value with inl key => [key] | inr keys => keys end.

Definition fill (default : pyval) (default_is_key : bool) (data : dict) :
    keyed pyval :=
  if default_is_key then getitem data default else Found default.

(** The first and the last of the renames that change a key, and the name
    [rename_regexp] gives the key: the first one counts, with [quiet] the
    last one. *)
Fixpoint first_match (renames : list regexp_rename) (key : string) :
    option string :=
  match renames with
  | [] => None
  | r :: rest =>
      if decide (sub r key = key) then first_match rest key
      else Some (sub r key)
  end.

Fixpoint last_match (renames : list regexp_rename) (key : string) :
    option string :=
  match renames with
  | [] => None
  | r :: rest =>
      match last_match rest key with
      | Some n => Some n
      | None => if decide (sub r key = key) then None else Some (sub r key)
      end
  end.

Definition new_name (renames : list regexp_rename) (quiet : bool)
    (key : string) : string :=
  default key (if quiet then last_match renames key
               else first_match renames key).

(** Lookup in a dict kept in insertion order, the pending renames of a
    row, and the old name whose value ends up under a new name: the last
    one in the order of the pending renames. *)
Fixpoint alookup {V : Type} (d : list (string * V)) (k : string) : option V :=
  match d with
  | [] => None
  | (k', v) :: rest => if decide (k' = k) then Some v else alookup rest k
  end.

Definition pending (renames : list regexp_rename) (quiet : bool)
    (items : list (string * pyval)) : list (string * string) :=
  (scan_all renames quiet items.*1 [] []).1.

Fixpoint source (pending_renames : list (string * string)) (k : string) :
    option string :=
  match pending_renames with
  | [] => None
  | (old_name, new_name) :: rest =>
      match source rest k with
      | Some o => Some o
      | None => if decide (new_name = k) then Some old_name else None
      end
  end.

(** *** Rows and renames of the examples *)

Definition row_ab : dict := {["a" := PyInt 1; "b" := PyInt 2]}.

Definition row_gaps : dict :=
  {["a" := PyNone; "b" := PyInt 2; "c" := PyInt 3]}.

Definition items_abc : list (string * pyval) :=
  [("a", PyInt 1); ("b", PyInt 2); ("c", PyInt 3)].

Definition swap_ab : list regexp_rename :=
  [RegexpRename "^a$" (fun k => if String.eqb k "a" then "b" else k);
   RegexpRename "^b$" (fun k => if String.eqb k "b" then "a" else k)].

Definition a_to_c : list regexp_rename :=
  [RegexpRename "^a$" (fun k => if String.eqb k "a" then "c" else k)].

(** * Properties *)

(** ** The generator protocol *)

Lemma call_generator g :
  exists target body, call g = propagate_exceptions (gen_id g) target body.
Proof. destruct g; simpl; eauto. Qed.

(** A finished generator answers at once: [send] raises [StopIteration],
    [throw] raises what it was given, [close] returns; nothing else
    happens. *)
Lemma generator_finished i target body o w :
  i ∈ finished w ->
  propagate_exceptions i target body o w =
    (match o with
     | Send _ => Raise StopIteration
     | Throw e => Raise e
     | Close => Ok tt
     end, logged i o w).
Proof.
  intros Hfin. unfold propagate_exceptions, bind, record, modify, get. simpl.
  destruct (decide _) as [_|Hn]; [|exfalso; apply Hn; exact Hfin].
  destruct o; reflexivity.
Qed.

(** Under the handlers, the close path ends by returning or raising:
    it never parks at a [yield] again. *)
Lemma close_path_not_yield target (c : M unit) w w' :
  pep479 (handlers target (c ;; raise GeneratorExit)) w <> (Ok Yield, w').
Proof.
  unfold pep479, handlers, try_catch, bind, raise, ret. simpl.
  destruct (c w) as [[[]|e|] w1]; simpl.
  - destruct target as [t|]; simpl; [|discriminate].
    destruct (t Close w1) as [[[]|e|] w2]; simpl; try discriminate.
    destruct (decide _); discriminate.
  - destruct (is_Exception e); simpl.
    + destruct target as [t|]; simpl.
      * destruct (t (Throw e) w1) as [[[]|e'|] w2]; simpl;
          try destruct (decide _); discriminate.
      * destruct (decide _); discriminate.
    + destruct target as [t|]; simpl; [|discriminate].
      destruct (t Close w1) as [[[]|e'|] w2]; simpl; try discriminate.
      destruct (decide _); discriminate.
  - discriminate.
Qed.

Ltac step_generator :=
  unfold propagate_exceptions, bind, record, modify, get, attempt,
    set_finished; simpl;
  destruct (decide _) as [Hfin|Hlive]; simpl.

Lemma generator_close_finishes i target body w r w' :
  propagate_exceptions i target body Close w = (r, w') ->
  r <> Diverge -> i ∈ finished w'.
Proof.
  step_generator.
  - intros [= <- <-] _. exact Hfin.
  - destruct (pep479 _ _) as [[[]|e|] w1] eqn:Hrun; simpl.
    + exfalso. exact (close_path_not_yield _ _ _ _ Hrun).
    + intros [= <- <-] _. set_solver.
    + destruct (decide _); intros [= <- <-] _; set_solver.
    + intros [= <- <-] H. congruence.
Qed.

Lemma generator_throw_raise_finishes i target body e w e' w' :
  propagate_exceptions i target body (Throw e) w = (Raise e', w') ->
  i ∈ finished w'.
Proof.
  step_generator.
  - intros [= <- <-]. exact Hfin.
  - destruct (pep479 _ _) as [[[]|e1|] w1]; simpl;
      intros [= <- <-] || intros [= <-]; set_solver.
Qed.

(** A generator that came back from [close()] has finished. *)
Lemma call_close_finishes g w r w1 :
  call g Close w = (r, w1) -> r <> Diverge -> gen_id g ∈ finished w1.
Proof.
  destruct (call_generator g) as (target & body & ->).
  apply generator_close_finishes.
Qed.

Lemma call_finished g o w :
  gen_id g ∈ finished w ->
  call g o w =
    (match o with
     | Send _ => Raise StopIteration
     | Throw e => Raise e
     | Close => Ok tt
     end, logged (gen_id g) o w).
Proof.
  destruct (call_generator g) as (target & body & ->).
  apply generator_finished.
Qed.

(** C6.  Finalize is idempotent on every bound stage: once a first
    [close()] has come back (returning or raising), a second [close()]
    returns without raising and does nothing but get recorded as a call on
    the stage itself; no finalize is forwarded to any target again.  The
    same holds through a resolved descriptor, as in [PipeSource.__or__],
    which closes the target that [iter_source] has closed already. *)
Theorem finalize_twice :
  (forall g w r w1,
      call g Close w = (r, w1) ->
      r <> Diverge ->
      call g Close w1 = (Ok tt, logged (gen_id g) Close w1))
  /\ (forall s g w r s1 w1,
      spec_bound s = Some g ->
      spec_call Close (s, w) = (r, (s1, w1)) ->
      r <> Diverge ->
      spec_call Close (s1, w1) = (Ok tt, (s, logged (gen_id g) Close w1))).
Proof.
  split.
  - intros g w r w1 Hfirst Hr.
    apply call_finished. exact (call_close_finishes _ _ _ _ Hfirst Hr).
  - intros s g w r s1 w1 Hb. unfold spec_call, bind, get, on_world. simpl.
    rewrite Hb. cbn [fst snd].
    destruct (call g Close w) as [r0 w0] eqn:Hfirst.
    intros [= <- <- <-] Hr. rewrite Hb. cbn [fst snd].
    rewrite (call_finished g Close w0); [reflexivity|].
    exact (call_close_finishes _ _ _ _ Hfirst Hr).
Qed.

Lemma finalize_twice_witness :
  call two_stage_gen Close (call two_stage_gen Close empty_world).2 =
    (Ok tt, logged 1 Close (call two_stage_gen Close empty_world).2).
Proof.
  apply (proj1 finalize_twice two_stage_gen empty_world
           (call two_stage_gen Close empty_world).1).
  - apply surjective_pairing.
  - vm_compute. discriminate.
Defined.

(** C4, as stated, fails: on [appender | appender], after [fail(error)]
    has been re-raised, [finalize()] returns and the downstream stage has
    received the failure but no finalize at all. *)
Lemma finalize_after_fail_not_delivered :
  (fail_two_stage empty_world).1 = Raise (Failure 0)
  /\ (fail_then_finalize empty_world).1 = Ok tt
  /\ received 0 (fail_then_finalize empty_world).2 = [Throw (Failure 0)]
  /\ Close ∉ received 0 (fail_then_finalize empty_world).2.
Proof.
  repeat split; try (vm_compute; reflexivity).
  vm_compute. intros H. inversion H as [|? ? ? H']; inversion H'.
Qed.

(** C4, amended.  A stage that re-raised a failure thrown into it has
    terminated: a later [close()] returns without raising and is recorded
    on the stage alone, so it reaches no downstream target (which was sent
    the failure instead). *)
Theorem finalize_after_unrecovered_fail g e w e' w1 :
  call g (Throw e) w = (Raise e', w1) ->
  call g Close w1 = (Ok tt, logged (gen_id g) Close w1).
Proof.
  intros Hfail. apply call_finished. revert Hfail.
  destruct (call_generator g) as (target & body & ->).
  apply generator_throw_raise_finishes.
Qed.

Lemma finalize_after_unrecovered_fail_witness :
  call two_stage_gen Close
       (call two_stage_gen (Throw (Failure 0)) empty_world).2 =
    (Ok tt, logged 1 Close
              (call two_stage_gen (Throw (Failure 0)) empty_world).2).
Proof.
  apply (finalize_after_unrecovered_fail two_stage_gen (Failure 0)
           empty_world (Failure 0)).
  vm_compute. reflexivity.
Defined.

(** ** Default stages *)

(** C2.  A default stage with a bound target, sent [fail(error)] while it
    is alive: the call is recorded, [fail(error)] is forwarded to the
    target with whatever that call raises dropped, the stage terminates,
    and the same error is raised to the caller. *)
Theorem default_fail_forwards i r t e w :
  default_routine r = true ->
  is_failure e = true ->
  i ∉ finished w ->
  call (Filter i r (Some t)) (Throw e) w =
    (record i (Throw e) ;;
     try_catch (call t (Throw e)) (fun _ => ret tt) ;;
     set_finished i ;;
     raise e) w.
Proof.
  intros Hr He Hlive.
  destruct r; try discriminate; destruct e; try discriminate;
    simpl;
    cbv [propagate_exceptions bind record modify get attempt set_finished
         pep479 handlers append try_catch raise ret]; simpl;
    (destruct (decide _) as [Hfin|_]; [contradiction|]); simpl;
    destruct (call t _ _) as [[[]|e1|] w2]; reflexivity.
Qed.

Lemma default_fail_forwards_witness :
  call two_stage_gen (Throw (Failure 0)) empty_world =
    (record 1 (Throw (Failure 0)) ;;
     try_catch (call (Filter 0 (Appender 10) None) (Throw (Failure 0)))
               (fun _ => ret tt) ;;
     set_finished 1 ;;
     raise (Failure 0)) empty_world.
Proof.
  apply (default_fail_forwards 1 (Appender 11) (Filter 0 (Appender 10) None)
           (Failure 0) empty_world).
  - reflexivity.
  - reflexivity.
  - simpl. apply not_elem_of_empty.
Defined.

(** ** Finalize *)

Lemma for_each_close_targets (ts : list gen) w :
  for_each (fun target : nat * obj => target.2 Close)
           (map (fun t => (gen_id t, call t)) ts) w =
  for_each (fun t => call t Close) ts w.
Proof.
  revert w. induction ts as [|t ts IH]; intros w; simpl; [reflexivity|].
  unfold bind. destruct (call t Close w) as [[[]|e|] w1]; auto.
Qed.

(** C3, as stated, fails.  On [appender | append(99) | rejecting 99 |
    appender], [finalize()] on the head raises the failure of the cleanup
    downstream; on a broadcast over that [append(99)] branch and a second
    sink, [finalize()] raises too and the second sink (identity 3) is never
    sent finalize. *)
Lemma finalize_raises :
  (finalize_cleanup_chain empty_world).1 = Raise (Failure 0)
  /\ (finalize_cleanup_fan empty_world).1 = Raise (Failure 0)
  /\ received 3 (finalize_cleanup_fan empty_world).2 = [].
Proof. repeat split; vm_compute; reflexivity. Qed.

(** C3, amended.  [finalize()] on a live stage without cleanup of its own
    forwards finalize to its target once, and on a live broadcast forwards
    finalize to the targets in order up to the first whose finalize
    raises; the stage is then finished, and [finalize()] raises exactly
    when that forwarding raised (its exception reaches the caller), and
    returns otherwise. *)
Theorem finalize_forwards :
  (forall i r t w,
      plain_routine r = true ->
      i ∉ finished w ->
      call (Filter i r t) Close w =
        (record i Close ;;
         let! x := attempt (close_opt t) in
         finish_close i x) w)
  /\ (forall i ts w,
      i ∉ finished w ->
      call (Broadcast i ts) Close w =
        (record i Close ;;
         let! x := attempt (for_each (fun t => call t Close) ts) in
         finish_close i x) w).
Proof.
  split.
  - intros i r t w Hr Hlive.
    destruct r; try discriminate; simpl;
      cbv [propagate_exceptions bind record modify get attempt set_finished
           pep479 handlers it_close try_catch raise ret finish_close close_opt];
      simpl;
      (destruct (decide _) as [Hfin|_]; [contradiction|]); simpl;
      (destruct t as [t|]; simpl; [|reflexivity]);
      destruct (call t Close _) as [[[]|e|] w1]; simpl; try reflexivity;
      destruct (decide (e = StopIteration)) as [->|];
      simpl; try reflexivity;
      destruct (decide (e = GeneratorExit)) as [->|]; reflexivity.
  - intros i ts w Hlive. simpl.
    cbv [propagate_exceptions bind record modify get attempt set_finished
         pep479 handlers it_close try_catch raise ret finish_close broadcast].
    simpl.
    destruct (decide _) as [Hfin|_]; [contradiction|]. simpl.
    rewrite for_each_close_targets.
    destruct (for_each _ ts _) as [[[]|e|] w1]; simpl; try reflexivity.
    destruct (decide (e = StopIteration)) as [->|]; simpl; [reflexivity|].
    destruct (decide (e = GeneratorExit)) as [->|]; simpl; [reflexivity|].
    destruct e; try contradiction; reflexivity.
Qed.

Lemma finalize_forwards_witness :
  call two_stage_gen Close empty_world =
    (record 1 Close ;;
     let! x := attempt (close_opt (Some (Filter 0 (Appender 10) None))) in
     finish_close 1 x) empty_world.
Proof.
  apply (proj1 finalize_forwards 1%nat (Appender 11)
           (Some (Filter 0 (Appender 10) None)) empty_world).
  - reflexivity.
  - simpl. apply not_elem_of_empty.
Defined.

(** ** Broadcast *)

(** C1, evaluated where the code departs from it.  A broadcast over
    [T0 = rejecting 5 | appender] (identity 1), [T1] (2) and [T2] (3) is
    sent the item 5: [T0] raises, [T1] is sent the failure and raises it
    again, which is not the [StopIteration] the loop of lines 439-444
    tolerates, so the loop ends there: [T2] receives neither the item nor
    the failure, and the failure reaches the caller. *)
Theorem broadcast_failure_stops_at_first_sibling :
  (deliver_three_way empty_world).1 = Raise (Failure 0)
  /\ received 1 (deliver_three_way empty_world).2 = [Send 5]
  /\ received 2 (deliver_three_way empty_world).2 = [Throw (Failure 0)]
  /\ received 3 (deliver_three_way empty_world).2 = [].
Proof. repeat split; vm_compute; reflexivity. Qed.

(** With two targets the sibling is reached: [T1] (identity 2) receives
    the failure and not the item, and the failure reaches the caller. *)
Lemma broadcast_two_targets :
  (deliver_two_way empty_world).1 = Raise (Failure 0)
  /\ received 1 (deliver_two_way empty_world).2 = [Send 5]
  /\ received 2 (deliver_two_way empty_world).2 = [Throw (Failure 0)].
Proof. repeat split; vm_compute; reflexivity. Qed.

(** The mechanism in general: when the first target raises a failure on
    the item and the second, thrown that failure, raises it again (as every
    default stage does), the broadcast ends there; whatever targets follow
    take no part in the round. *)
Lemma broadcast_failure_skips_rest i t0 t1 ts v e w w1 w2 :
  i ∉ finished w ->
  gen_id t0 <> gen_id t1 ->
  is_failure e = true ->
  call t0 (Send v) (logged i (Send v) w) = (Raise e, w1) ->
  call t1 (Throw e) w1 = (Raise e, w2) ->
  call (Broadcast i (t0 :: t1 :: ts)) (Send v) w =
    (Raise e, (set_finished i w2).2).
Proof.
  intros Hlive Hid He H0 H1. cbn [call map].
  cbv [propagate_exceptions bind record modify get attempt set_finished
       pep479 handlers try_catch raise ret broadcast closing].
  cbn [finished]. destruct (decide _) as [Hfin|_]; [contradiction|].
  cbn [for_each fst snd]. unfold bind, try_catch.
  fold (logged i (Send v) w). rewrite H0.
  assert (HE : is_Exception e = true) by (destruct e; done).
  rewrite HE. cbn [for_each fst snd].
  destruct (decide (gen_id t0 ≠ gen_id t0)) as [Hne|_]; [congruence|].
  destruct (decide (gen_id t0 ≠ gen_id t1)) as [_|Heq]; [|contradiction].
  unfold throw_tolerant, try_catch. rewrite H1.
  destruct e; try discriminate; reflexivity.
Qed.

(** ** The end-to-end scenario *)

(** C8.  [iter_source(range(3)) | (append(99) | double() |
    appender(output))] returns and leaves [output] holding 0, 2, 4, 198;
    so does the same chain composed to the right. *)
Theorem end_to_end :
  (source_or [0; 1; 2] (append_double_collect 7, empty_world)).1 = Ok tt
  /\ lists (source_or [0; 1; 2] (append_double_collect 7, empty_world)).2.2
       !! 7%nat = Some [0; 2; 4; 198]
  /\ lists (source_or [0; 1; 2]
              (Pipe (element (Append 99))
                    (Pipe (element double) (element (Appender 7)) None)
                    None, empty_world)).2.2
       !! 7%nat = Some [0; 2; 4; 198].
Proof. repeat split; vm_compute; reflexivity. Qed.

(** ** Descriptors *)

(** C5.  Resolving a composite resolves its right side with the given
    target first; when that yields the bound stage [R], the left side is
    resolved with [R] as its target, and when that yields [L], the
    composite yields [L] and from then on hands its own [send], [throw]
    and [close] to [L]. *)
Theorem composite_resolves lhs rhs b target w R rhs' w1 L lhs' w2 :
  resolve rhs target w = (Ok R, rhs', w1) ->
  resolve lhs (Some R) w1 = (Ok L, lhs', w2) ->
  resolve (Pipe lhs rhs b) target w = (Ok L, Pipe lhs' rhs' (Some L), w2)
  /\ forall o w0,
       spec_call o (Pipe lhs' rhs' (Some L), w0) =
         ((call L o w0).1, (Pipe lhs' rhs' (Some L), (call L o w0).2)).
Proof.
  intros Hr Hl. split.
  - simpl. rewrite Hr, Hl. reflexivity.
  - intros o w0. unfold spec_call, bind, get, on_world. simpl.
    destruct (call L o w0); reflexivity.
Qed.

(** The right side is resolved first: when it raises, the left side is
    left alone and the composite raises the same. *)
Lemma composite_right_raises lhs rhs b target w e rhs' w1 :
  resolve rhs target w = (Raise e, rhs', w1) ->
  resolve (Pipe lhs rhs b) target w = (Raise e, Pipe lhs rhs' b, w1).
Proof. intros Hr. simpl. rewrite Hr. reflexivity. Qed.

(** A [PipeElement] resolved with a target makes a generator that holds
    that target. *)
Lemma element_resolves_with_target r kwargs b R w g s' w' :
  resolve (PipeElement (FRoutine r) kwargs b) (Some R) w = (Ok g, s', w') ->
  exists i, g = Filter i r (Some R).
Proof.
  simpl. unfold coroutine, bind, fresh_id, attempt. simpl.
  rewrite lookup_insert_eq.
  destruct (pep479 _ _) as [[[]|e|] w1]; simpl; try discriminate.
  intros [= <- _ _]. eauto.
Qed.

Lemma composite_resolves_witness :
  resolve (Pipe (element (Appender 11)) (element (Appender 10)) None) None
          empty_world =
    (Ok two_stage_gen,
     Pipe (PipeElement (FRoutine (Appender 11))
                       {["target" := Filter 0 (Appender 10) None]}
                       (Some two_stage_gen))
          (PipeElement (FRoutine (Appender 10)) ∅
                       (Some (Filter 0 (Appender 10) None)))
          (Some two_stage_gen),
     World ∅ ∅ ∅ ∅ [] 2).
Proof.
  apply (composite_resolves (element (Appender 11)) (element (Appender 10))
           None None empty_world (Filter 0 (Appender 10) None)
           (PipeElement (FRoutine (Appender 10)) ∅
                        (Some (Filter 0 (Appender 10) None)))
           (World ∅ ∅ ∅ ∅ [] 1)).
  - reflexivity.
  - reflexivity.
Defined.

(** C9, as stated, fails: resolving [appender(output)] with a target
    writes that target into the keyword configuration the descriptor
    stores, which was empty before. *)
Lemma resolve_rewrites_kwargs :
  spec_kwargs (element (Appender 11)) = ∅
  /\ spec_kwargs
       (resolve (element (Appender 11)) (Some (Filter 0 (Appender 10) None))
                (World ∅ ∅ ∅ ∅ [] 1)).1.2
     <> spec_kwargs (element (Appender 11)).
Proof.
  split; [reflexivity|]. simpl. intros H.
  apply (f_equal (fun m : gmap string gen => m !! "target")) in H.
  vm_compute in H. discriminate.
Qed.

(** C9, amended.  [resolve] leaves the routine and the positional
    configuration of a descriptor as they were, whatever the outcome;
    the keyword configuration is unchanged when no target is given, and
    with a target it becomes the old one with the target stored under
    [target]. *)
Theorem resolve_configuration fn kwargs b target w :
  exists b',
    (resolve (PipeElement fn kwargs b) target w).1.2 =
      PipeElement fn
        match target with
        | Some t => <["target" := t]> kwargs
        | None => kwargs
        end b'.
Proof.
  simpl. destruct (coroutine fn _ w) as [[g|e|] w']; simpl; eauto.
Qed.

(** ** Framing: calls on a generator leave other bridges alone *)

(** Induction on a generator and on everything it holds. *)
Lemma gen_nested_ind (P : gen -> Prop) :
  (forall i r t,
      match t with Some g => P g | None => True end -> P (Filter i r t)) ->
  (forall i ts, Forall P ts -> P (Broadcast i ts)) ->
  forall g, P g.
Proof.
  intros Hfilter Hbroadcast. fix IH 1. intros [i r t|i ts].
  - apply Hfilter. destruct t as [g|]; [apply IH | exact I].
  - apply Hbroadcast. induction ts as [|t ts IHts]; constructor.
    + apply IH.
    + exact IHts.
Qed.

Section Frame.
Variable i : nat.
Variable fg : gmap nat glet -> gmap nat glet.
Variable fb : gset nat -> gset nat.
Hypothesis fg_lookup : forall j m, j <> i -> fg m !! j = m !! j.
Hypothesis fg_insert :
  forall j x m, j <> i -> fg (<[j := x]> m) = <[j := x]> (fg m).
Hypothesis fb_elem : forall j B, j <> i -> j ∈ fb B <-> j ∈ B.
Hypothesis fb_union :
  forall j B, j <> i -> fb ({[j]} ∪ B) = {[j]} ∪ fb B.

Local Abbreviation framed' := (framed fg fb).
Local Abbreviation frame' := (frame fg fb).
Local Abbreviation framed_obj' := (framed_obj fg fb).
Local Abbreviation framed_target' := (framed_target fg fb).

Lemma framed_ret {A} (a : A) : framed' (ret a).
Proof. intros w. reflexivity. Qed.

Lemma framed_raise {A} e : framed' (@raise world A e).
Proof. intros w. reflexivity. Qed.

Lemma framed_diverge {A} : framed' (@diverge world A).
Proof. intros w. reflexivity. Qed.

Lemma framed_bind {A B} (c : M A) (k : A -> M B) :
  framed' c -> (forall a, framed' (k a)) -> framed' (bind c k).
Proof.
  intros Hc Hk w. unfold bind. rewrite Hc.
  destruct (c w) as [[a|e|] w1]; simpl; [apply Hk| |]; reflexivity.
Qed.

Lemma framed_try_catch {A} (c : M A) h :
  framed' c -> (forall e, framed' (h e)) -> framed' (try_catch c h).
Proof.
  intros Hc Hh w. unfold try_catch. rewrite Hc.
  destruct (c w) as [[a|e|] w1]; simpl; [|apply Hh|]; reflexivity.
Qed.

Lemma framed_attempt {A} (c : M A) : framed' c -> framed' (attempt c).
Proof.
  intros Hc w. unfold attempt. rewrite Hc.
  destruct (c w) as [[a|e|] w1]; reflexivity.
Qed.

Lemma framed_for_each {A} (f : A -> M unit) xs :
  Forall (fun x => framed' (f x)) xs -> framed' (for_each f xs).
Proof.
  induction 1 as [|x xs Hx _ IH]; simpl.
  - apply framed_ret.
  - apply framed_bind; auto.
Qed.

(** Reading the world is harmless when what is done with it does not
    depend on the framed part. *)
Lemma framed_get {A} (k : world -> M A) :
  (forall w w0, k (frame' w) w0 = k w w0) ->
  (forall w, framed' (k w)) ->
  framed' (bind get k).
Proof.
  intros Hk Hf w. unfold bind, get. rewrite Hk. apply Hf.
Qed.

Lemma framed_record j o : framed' (record j o).
Proof. intros w. reflexivity. Qed.

Lemma framed_set_finished j : framed' (set_finished j).
Proof. intros w. reflexivity. Qed.

Lemma framed_list_append k v : framed' (list_append k v).
Proof. intros w. reflexivity. Qed.

Lemma framed_set_glet j g : j <> i -> framed' (set_glet j g).
Proof.
  intros Hj w. unfold set_glet, modify, frame. simpl.
  rewrite fg_insert by exact Hj. reflexivity.
Qed.

Lemma framed_set_bound_value j : j <> i -> framed' (set_bound_value j).
Proof.
  intros Hj w. unfold set_bound_value, modify, frame. simpl.
  rewrite fb_union by exact Hj. reflexivity.
Qed.

Lemma framed_pep479 {A} (c : M A) : framed' c -> framed' (pep479 c).
Proof.
  intros Hc. apply framed_try_catch; [exact Hc|].
  intros e. destruct (decide _); apply framed_raise.
Qed.

Lemma framed_it_close c : framed' c -> framed' (it_close c).
Proof.
  intros Hc. apply framed_bind.
  - apply framed_attempt, framed_pep479, Hc.
  - intros [[]|e]; [apply framed_raise | apply framed_ret |].
    destruct (decide _); [apply framed_ret | apply framed_raise].
Qed.

Lemma framed_handlers target c :
  framed_target' target -> framed' c -> framed' (handlers target c).
Proof.
  intros Ht Hc. apply framed_try_catch; [exact Hc|].
  intros e. destruct (is_Exception e).
  - apply framed_bind; [|intros; apply framed_raise].
    destruct target as [t|]; [|apply framed_ret].
    apply framed_try_catch; [apply Ht | intros; apply framed_ret].
  - apply framed_bind; [|intros; apply framed_ret].
    destruct target as [t|]; [apply Ht | apply framed_ret].
Qed.

Lemma framed_propagate_exceptions j target body :
  framed_target' target ->
  (forall o, framed' (body o)) ->
  framed_obj' (propagate_exceptions j target body).
Proof.
  intros Ht Hb o. unfold propagate_exceptions.
  apply framed_bind; [apply framed_record|]. intros _.
  apply framed_get; [reflexivity|]. intros w.
  destruct (decide _).
  - destruct o; [apply framed_raise | apply framed_raise | apply framed_ret].
  - apply framed_bind.
    + apply framed_attempt, framed_pep479, framed_handlers; [exact Ht|].
      destruct (closing o).
      * apply framed_bind; [apply framed_it_close, Hb|].
        intros; apply framed_raise.
      * apply framed_pep479, Hb.
    + intros [[]|e].
      * destruct o; first [apply framed_ret | apply framed_raise].
      * apply framed_bind; [apply framed_set_finished|]. intros _.
        destruct o; first [apply framed_ret | apply framed_raise].
      * apply framed_bind; [apply framed_set_finished|]. intros _.
        destruct o; try apply framed_raise.
        destruct (decide _); [apply framed_ret | apply framed_raise].
Qed.

Lemma framed_run_on j pending k : j <> i -> framed' (run_on j pending k).
Proof.
  intros Hj. destruct pending as [|o rest]; simpl.
  - destruct k; (apply framed_bind; [apply framed_set_glet, Hj|]); intros _;
      first [apply framed_ret | apply framed_raise].
  - apply framed_bind; [apply framed_set_glet, Hj|]. intros _.
    apply framed_ret.
Qed.

Lemma framed_resume fn j x : j <> i -> framed' (resume fn j x).
Proof.
  intros Hj. unfold resume. apply framed_get.
  - intros w w0. simpl. rewrite fg_lookup by exact Hj. reflexivity.
  - intros w. destruct (default GDead (glets w !! j)) as [s|pending k|];
      destruct x;
      repeat match goal with
             | |- context [let (_, _) := ?p in _] => destruct p
             end;
      first [ apply framed_run_on, Hj
            | apply framed_ret
            | apply framed_raise
            | apply framed_bind;
              [apply framed_set_glet, Hj | intros; apply framed_raise] ].
Qed.

Lemma framed_send_opt target v :
  framed_target' target -> framed' (send_opt target v).
Proof. destruct target; intros Ht; [apply Ht | apply framed_ret]. Qed.

Lemma framed_send_req target v :
  framed_target' target -> framed' (send_req target v).
Proof. destruct target; intros Ht; [apply Ht | apply framed_raise]. Qed.

Lemma framed_forward fn j target budget value :
  j <> i -> framed_target' target ->
  framed' (forward fn j target budget value).
Proof.
  intros Hj Ht. revert value.
  induction budget as [|b budget IH]; intros value;
    destruct value; simpl;
    try apply framed_ret; try apply framed_diverge;
    (apply framed_bind; [apply framed_send_opt, Ht|]); intros _;
    (apply framed_bind; [apply framed_resume, Hj|]); intros value'.
  - destruct value'; first [apply framed_ret | apply framed_diverge].
  - apply IH.
Qed.

Lemma framed_iter_filter fn j target o :
  j <> i -> framed_target' target -> framed' (iter_filter fn j target o).
Proof.
  intros Hj Ht. unfold iter_filter. apply framed_try_catch.
  - destruct o as [item|e|].
    + apply framed_bind; [apply framed_resume, Hj|]. intros value.
      apply framed_bind; [apply framed_set_bound_value, Hj|]. intros _.
      apply framed_get.
      * intros w w0. unfold pending_of. simpl.
        rewrite fg_lookup by exact Hj. reflexivity.
      * intros w. apply framed_bind; [apply framed_forward; assumption|].
        intros; apply framed_ret.
    + destruct (is_Exception e); [|apply framed_raise].
      apply framed_bind; [apply framed_resume, Hj|]. intros _.
      apply framed_get.
      * intros w w0. simpl.
        destruct (decide (j ∈ fb (bound_value w))) as [H1|H1],
                 (decide (j ∈ bound_value w)) as [H2|H2];
          try reflexivity; exfalso;
          [apply H2, (fb_elem j _ Hj), H1 | apply H1, (fb_elem j _ Hj), H2].
      * intros w. destruct (decide _); [apply framed_ret | apply framed_raise].
    + apply framed_raise.
  - intros e. destruct (decide _); [|apply framed_raise].
    apply framed_bind; [apply framed_resume, Hj|].
    intros; apply framed_ret.
Qed.

Lemma framed_filter_body r j target o :
  (forall fn, r = IterFilter fn -> j <> i) ->
  framed_target' target -> framed' (filter_body r j target o).
Proof.
  intros Hj Ht. destruct r as [output| |f|last|fn]; simpl.
  - destruct o; try apply framed_raise.
    apply framed_bind; [apply framed_list_append|]. intros _.
    apply framed_bind; [apply framed_send_opt, Ht|].
    intros; apply framed_ret.
  - destruct o; first [apply framed_ret | apply framed_raise].
  - destruct o as [item| |]; try apply framed_raise. simpl.
    destruct (f item); [apply framed_raise|].
    apply framed_bind; [apply framed_send_req, Ht|].
    intros; apply framed_ret.
  - apply framed_try_catch.
    + destruct o; try apply framed_raise.
      apply framed_bind; [apply framed_send_req, Ht|].
      intros; apply framed_ret.
    + intros e. destruct (decide _); [|apply framed_raise].
      apply framed_bind; [apply framed_send_req, Ht|].
      intros; apply framed_ret.
  - apply framed_iter_filter; [eapply Hj; reflexivity | exact Ht].
Qed.

Lemma framed_throw_tolerant x e : framed_obj' x -> framed' (throw_tolerant x e).
Proof.
  intros Hx. apply framed_try_catch; [apply Hx|].
  intros e'. destruct (decide _); [apply framed_ret | apply framed_raise].
Qed.

Lemma framed_broadcast (targets : list (nat * obj)) o :
  Forall (fun t => framed_obj' t.2) targets ->
  framed' (broadcast targets o).
Proof.
  intros Hts. unfold broadcast. apply framed_try_catch.
  - destruct o as [item|e|].
    + apply framed_bind; [|intros; apply framed_ret].
      apply framed_for_each.
      eapply Forall_impl; [exact Hts|]. intros target Htarget. simpl.
      apply framed_try_catch; [apply Htarget|]. intros e.
      destruct (is_Exception e); [|apply framed_raise].
      apply framed_bind; [|intros; apply framed_raise].
      apply framed_for_each.
      eapply Forall_impl; [exact Hts|]. intros ex_target Hex. simpl.
      destruct (decide _);
        [apply framed_throw_tolerant, Hex | apply framed_ret].
    + destruct (is_Exception e); [|apply framed_raise].
      apply framed_bind; [|intros; apply framed_raise].
      apply framed_for_each.
      eapply Forall_impl; [exact Hts|]. intros target Htarget. simpl.
      apply framed_throw_tolerant, Htarget.
    + apply framed_raise.
  - intros e. destruct (decide _); [|apply framed_raise].
    apply framed_bind; [|intros; apply framed_ret].
    apply framed_for_each.
    eapply Forall_impl; [exact Hts|]. intros target Htarget. apply Htarget.
Qed.

(** Calls on a generator that does not contain the bridge [i] commute
    with every change to what belongs to [i]. *)
Lemma framed_call g : i ∉ gen_ids g -> framed_obj' (call g).
Proof.
  induction g as [j r t IH|j ts IH] using gen_nested_ind; intros Hi.
  - simpl in Hi. apply not_elem_of_cons in Hi as [Hij Hi].
    cbn [call].
    assert (Ht : framed_target'
                   match t with Some g' => Some (call g') | None => None end).
    { destruct t as [g'|]; simpl; [apply IH, Hi | exact I]. }
    apply framed_propagate_exceptions; [exact Ht|].
    intros o. apply framed_filter_body; [|exact Ht].
    intros fn _. congruence.
  - simpl in Hi. apply not_elem_of_cons in Hi as [Hij Hi].
    cbn [call]. apply framed_propagate_exceptions; [exact I|].
    intros o. apply framed_broadcast.
    induction IH as [|t ts Ht _ IHts]; simpl; constructor;
      simpl in Hi; apply not_elem_of_app in Hi as [Hit Hits].
    + simpl. apply Ht, Hit.
    + apply IHts, Hits.
Qed.

End Frame.

(** ** The iterator bridge *)

(** A live generator whose body takes the call and parks again. *)
Lemma generator_yields i target body o w w1 :
  i ∉ finished w ->
  closing o = false ->
  body o (logged i o w) = (Ok Yield, w1) ->
  propagate_exceptions i target body o w = (Ok tt, w1).
Proof.
  intros Hlive Hc Hbody.
  cbv [propagate_exceptions bind record modify get attempt pep479 handlers
       try_catch].
  cbn [finished]. destruct (decide _) as [Hfin|_]; [contradiction|].
  rewrite Hc. fold (logged i o w). rewrite Hbody.
  destruct o; try reflexivity; discriminate.
Qed.

Lemma resume_item fn i s v w :
  glets w !! i = Some (GPull s) ->
  resume fn i (RItem v) w =
    run_on i (on_item fn s v).1 (next_cont (on_item fn s v).2) w.
Proof.
  intros Hg. cbv [resume bind get]. rewrite Hg. simpl.
  destruct (on_item fn s v). reflexivity.
Qed.

Lemma resume_exit fn i s w :
  glets w !! i = Some (GPull s) ->
  resume fn i RExit w =
    run_on i (on_end fn s).1 (end_cont (on_end fn s).2) w.
Proof.
  intros Hg. cbv [resume bind get]. rewrite Hg. simpl.
  destruct (on_end fn s). reflexivity.
Qed.

(** What belongs to bridge [i] is framed for every generator that does not
    contain [i]. *)
Lemma call_parked g i gl o w :
  i ∉ gen_ids g ->
  call g o (parked i gl w) = ((call g o w).1, parked i gl (call g o w).2).
Proof.
  intros Hi.
  apply (framed_call i (insert i gl) (union {[i]})); try exact Hi.
  - intros j m Hj. apply lookup_insert_ne. congruence.
  - intros j x m Hj. apply insert_insert_ne. congruence.
  - intros j B Hj. rewrite elem_of_union, elem_of_singleton. tauto.
  - intros j B Hj.
    rewrite !(assoc_L (∪)), (comm_L (∪) {[i]} {[j]}). reflexivity.
Qed.

Lemma set_glet_parked i gl gl' w :
  set_glet i gl' (parked i gl w) = (Ok tt, parked i gl' w).
Proof.
  unfold set_glet, modify, parked. simpl.
  rewrite insert_insert_eq. reflexivity.
Qed.

(** The forwarding loop: with the value [o] in hand and [rest] still held
    by the greenlet, the target is sent [o] and [rest], one after the
    other, and the loop ends on the sentinel with the routine parked at
    its next pull. *)
Lemma forward_sends fn i t s' rest :
  i ∉ gen_ids t ->
  forall o w wt,
    for_each (fun x => call t (Send x)) (o :: rest) w = (Ok tt, wt) ->
    forward fn i (Some (call t)) rest (Value o)
            (parked i (GEmit rest (KPull s')) w) =
      (Ok tt, parked i (GPull s') wt).
Proof.
  intros Hi. induction rest as [|o' rest IH]; intros o w wt Hsend;
    simpl in Hsend; unfold bind in Hsend;
    destruct (call t (Send o) w) as [[[]|e|] w1] eqn:Ho; try discriminate;
    cbn [forward send_opt]; unfold bind at 1;
    rewrite (call_parked _ _ _ _ _ Hi), Ho; cbn [fst snd];
    unfold bind at 1, resume, bind at 1, get; cbn [parked glets];
    rewrite lookup_insert_eq; cbn [default from_option id run_on].
  - injection Hsend as <-.
    unfold bind. fold (parked i (GEmit [] (KPull s')) w1).
    rewrite set_glet_parked. reflexivity.
  - unfold bind. fold (parked i (GEmit (o' :: rest) (KPull s')) w1).
    rewrite set_glet_parked. unfold ret. apply IH. exact Hsend.
Qed.

(** C7.  The pass-through routine behind a bridge, sent 1, 2, 3 and then
    finalized, makes the sink downstream receive [deliver(1)],
    [deliver(2)], [deliver(3)] and one [finalize()], in this order.  In
    general, take a live bridge whose routine waits for an item, in front
    of any target, and an item to which the routine answers with the
    outputs [outs] before it asks for the next one: if the target takes
    [outs] one after the other, then [deliver] on the bridge returns and
    has done exactly that, during the call and in this order; the loop
    has ended on the sentinel, the routine parked at its next pull. *)
Theorem bridge_round_trip :
  ((bridge_123 empty_world).1 = Ok tt
   /\ received 0 (bridge_123 empty_world).2 = [Send 1; Send 2; Send 3; Close])
  /\ forall fn i t s s' v outs w wt,
       i ∉ gen_ids t ->
       i ∉ finished w ->
       glets w !! i = Some (GPull s) ->
       on_item fn s v = (outs, inl s') ->
       for_each (fun x => call t (Send x)) outs (logged i (Send v) w)
         = (Ok tt, wt) ->
       call (Filter i (IterFilter fn) (Some t)) (Send v) w =
         (Ok tt, parked i (GPull s') wt).
Proof.
  split; [split; vm_compute; reflexivity|].
  intros fn i t s s' v outs w wt Hi Hlive Hg Hitem Hsend.
  cbn [call filter_body].
  apply generator_yields; [exact Hlive | reflexivity |].
  unfold iter_filter, try_catch. unfold bind at 1.
  rewrite (resume_item _ _ s) by exact Hg. rewrite Hitem.
  cbn [fst snd next_cont].
  destruct outs as [|o rest]; cbn [run_on];
    cbv [bind set_glet modify ret set_bound_value get pending_of];
    cbn [glets]; rewrite lookup_insert_eq.
  - cbn [forward]. unfold ret. injection Hsend as <-. reflexivity.
  - match goal with |- context [forward _ _ _ _ _ ?w0] =>
      change w0 with (parked i (GEmit rest (KPull s')) (logged i (Send v) w))
    end.
    rewrite (forward_sends fn i t s' rest Hi o _ wt Hsend). reflexivity.
Qed.

Lemma bridge_round_trip_witness :
  call (bridge passthrough 1 0 10) (Send 5)
       (World ∅ {[1%nat := GPull []]} ∅ ∅ [] 2) =
    (Ok tt,
     parked 1 (GPull [])
       (World ∅ {[1%nat := GPull []]} ∅ {[10%nat := [5]]}
              [(1%nat, Send 5); (0%nat, Send 5)] 2)).
Proof.
  refine (proj2 bridge_round_trip passthrough 1%nat (sink 0 10) [] [] 5 [5]
            (World ∅ {[1%nat := GPull []]} ∅ ∅ [] 2) _ _ _ _ _ _).
  - vm_compute. intros H. inversion H as [|? ? ? H']. inversion H'.
  - simpl. apply not_elem_of_empty.
  - reflexivity.
  - reflexivity.
  - vm_compute. reflexivity.
Defined.

(** [switch(e)] with the [GeneratorExit] into a routine that yields an
    output or returns: control comes back and the greenlet is left
    [abandoned]. *)
Lemma resume_exit_abandons fn i s outs r w :
  glets w !! i = Some (GPull s) ->
  on_end fn s = (outs, r) ->
  outs <> [] \/ r = None ->
  exists x, resume fn i RExit w = (set_glet i (abandoned outs r) ;; ret x) w.
Proof.
  intros Hg Hend Hcase. rewrite (resume_exit fn i s) by exact Hg.
  rewrite Hend. cbn [fst snd].
  destruct outs as [|o rest]; cbn [run_on abandoned].
  - destruct Hcase as [H| ->]; [congruence|]. eexists. reflexivity.
  - eexists. reflexivity.
Qed.

(** C10.  [finalize()] on a live bridge whose routine waits for an item,
    in front of any target, where the routine answers the end of its
    input by yielding the outputs [outs] (or by returning at once).  The
    close signal is switched into the greenlet once; what comes back, the
    first of [outs], is dropped, the greenlet is never resumed and stays
    parked with the rest; the one call the target receives is
    [finalize()], and the bridge ends as that call ends. *)
Theorem bridge_finalize_discards fn i t s outs r w :
  i ∉ finished w ->
  glets w !! i = Some (GPull s) ->
  on_end fn s = (outs, r) ->
  outs <> [] \/ r = None ->
  call (Filter i (IterFilter fn) (Some t)) Close w =
    (record i Close ;;
     set_glet i (abandoned outs r) ;;
     let! x := attempt (call t Close) in
     finish_close i x) w.
Proof.
  intros Hlive Hg Hend Hcase. cbn [call filter_body].
  destruct (resume_exit_abandons fn i s outs r (logged i Close w)
              Hg Hend Hcase) as [x Hx].
  cbv [propagate_exceptions bind record modify get attempt set_finished
       pep479 handlers it_close try_catch raise ret iter_filter closing
       finish_close].
  cbn [finished]. destruct (decide _) as [Hfin|_]; [contradiction|].
  simpl. fold (logged i Close w). rewrite Hx.
  cbv [bind set_glet modify ret]. simpl.
  destruct (call t Close _) as [[[]|e|] w1]; simpl; try reflexivity.
  destruct (decide (e = StopIteration)) as [->|]; simpl; [reflexivity|].
  destruct (decide (e = GeneratorExit)) as [->|]; simpl; reflexivity.
Qed.

Lemma bridge_finalize_discards_witness :
  call (bridge buffering 1 0 10) Close
       (World ∅ {[1%nat := GPull [1; 2]]} ∅ ∅ [] 2) =
    (Ok tt,
     World ({[1%nat]} ∪ ({[0%nat]} ∪ ∅))
           (<[1%nat := GEmit [2] KReturn]> {[1%nat := GPull [1; 2]]})
           ∅ ∅ [(1%nat, Close); (0%nat, Close)] 2).
Proof.
  refine (bridge_finalize_discards buffering 1%nat (sink 0 10) [1; 2] [1; 2]
            None (World ∅ {[1%nat := GPull [1; 2]]} ∅ ∅ [] 2) _ _ _ _).
  - simpl. apply not_elem_of_empty.
  - reflexivity.
  - reflexivity.
  - left. discriminate.
Defined.

(** A bridge whose routine lets an injected failure go by behaves as a
    default stage: the failure is thrown into the routine's pending pull,
    the routine ends with it, and the bridge forwards it to its target
    and raises it to the caller. *)
Lemma bridge_fail_forwards fn i t s e w :
  is_failure e = true ->
  i ∉ finished w ->
  glets w !! i = Some (GPull s) ->
  on_error fn s e = ([], e) ->
  call (Filter i (IterFilter fn) (Some t)) (Throw e) w =
    (record i (Throw e) ;;
     set_glet i GDead ;;
     try_catch (call t (Throw e)) (fun _ => ret tt) ;;
     set_finished i ;;
     raise e) w.
Proof.
  intros He Hlive Hg Herr. cbn [call filter_body].
  assert (Hrun : resume fn i (RThrow e) (logged i (Throw e) w) =
                 (set_glet i GDead ;; raise e) (logged i (Throw e) w)).
  { cbv [resume bind get]. cbn [logged glets]. rewrite Hg. simpl.
    rewrite Herr. reflexivity. }
  destruct e; try discriminate;
    cbv [propagate_exceptions bind record modify get attempt set_finished
         pep479 handlers try_catch raise ret iter_filter closing
         is_Exception];
    cbn [finished]; (destruct (decide _) as [Hfin|_]; [contradiction|]);
    fold (logged i (Throw RuntimeError) w) (logged i (Throw TypeError) w)
         (logged i (Throw AttributeError) w)
         (logged i (Throw UnboundLocalError) w);
    try match goal with n : nat |- _ => fold (logged i (Throw (Failure n)) w)
        end;
    rewrite Hrun; cbv [bind set_glet modify raise]; simpl;
    destruct (call t _ _) as [[[]|e1|] w2]; reflexivity.
Qed.

(** * Further properties of the code *)

(** ** The generator protocol, continued *)

(** [try: kwargs["target"].throw(e) except: pass] (lines 228-232). *)
Lemma generator_raises i target body o e w w1 :
  i ∉ finished w ->
  closing o = false ->
  is_failure e = true ->
  body o (logged i o w) = (Raise e, w1) ->
  propagate_exceptions i target body o w =
    (match target with
     | Some t => try_catch (t (Throw e)) (fun _ => ret tt)
     | None => ret tt
     end ;;
     set_finished i ;;
     raise e) w1.
Proof.
  intros Hlive Hc He Hbody.
  cbv [propagate_exceptions bind record modify get attempt pep479 handlers
       try_catch set_finished raise ret].
  cbn [finished]. destruct (decide _) as [Hfin|_]; [contradiction|].
  rewrite Hc. fold (logged i o w). rewrite Hbody.
  destruct e; try discriminate; simpl;
    (destruct target as [t|]; simpl;
     [destruct (t _ w1) as [[[]|e1|] w2]; simpl|]);
    destruct o; try reflexivity; discriminate.
Qed.

Lemma generator_send_raise_finishes i target body v w e w' :
  propagate_exceptions i target body (Send v) w = (Raise e, w') ->
  i ∈ finished w'.
Proof.
  step_generator.
  - intros [= <- <-]. exact Hfin.
  - destruct (pep479 _ _) as [[[]|e1|] w1]; simpl;
      intros [= <- <-] || intros [= <-]; set_solver.
Qed.

(** A stage that raised out of [send] has terminated: whatever it is
    called with next, it answers as a finished generator, [send] with
    [StopIteration], and neither its own logic nor its target is reached. *)
Theorem deliver_after_failure g v e w w1 o :
  call g (Send v) w = (Raise e, w1) ->
  call g o w1 =
    (match o with
     | Send _ => Raise StopIteration
     | Throw e' => Raise e'
     | Close => Ok tt
     end, logged (gen_id g) o w1).
Proof.
  intros Hfail. apply call_finished. revert Hfail.
  destruct (call_generator g) as (target & body & ->).
  apply generator_send_raise_finishes.
Qed.

Lemma deliver_after_failure_witness :
  call (Filter 1 (rejecting 5 0) (Some (sink 0 10))) (Send 6)
       (call (Filter 1 (rejecting 5 0) (Some (sink 0 10))) (Send 5)
             empty_world).2 =
    (Raise StopIteration,
     logged 1 (Send 6)
       (call (Filter 1 (rejecting 5 0) (Some (sink 0 10))) (Send 5)
             empty_world).2).
Proof.
  apply (deliver_after_failure (Filter 1 (rejecting 5 0) (Some (sink 0 10)))
           5 (Failure 0) empty_world).
  vm_compute. reflexivity.
Defined.

(** ** Broadcast, continued *)

Lemma for_each_guarded_ok (h : nat * obj -> exn -> M unit) ts v w w1 :
  for_each (fun t => call t (Send v)) ts w = (Ok tt, w1) ->
  for_each (fun target : nat * obj =>
              try_catch (target.2 (Send v)) (h target))
           (map (fun t => (gen_id t, call t)) ts) w = (Ok tt, w1).
Proof.
  revert w. induction ts as [|t ts IH]; intros w; simpl; [auto|].
  unfold bind, try_catch.
  destruct (call t (Send v) w) as [[[]|e|] w0]; try discriminate.
  apply IH.
Qed.

(** When every target takes the item, [send] on a live broadcast returns
    and has sent the item to the targets one after the other, in the order
    of the argument list, and done nothing else. *)
Theorem broadcast_delivers_in_order i ts v w w1 :
  i ∉ finished w ->
  for_each (fun t => call t (Send v)) ts (logged i (Send v) w) = (Ok tt, w1) ->
  call (Broadcast i ts) (Send v) w = (Ok tt, w1).
Proof.
  intros Hlive Hsend. cbn [call].
  apply generator_yields; [exact Hlive | reflexivity |].
  unfold broadcast. unfold try_catch at 1. unfold bind at 1.
  rewrite (for_each_guarded_ok _ _ _ _ _ Hsend). reflexivity.
Qed.

Lemma broadcast_delivers_in_order_witness :
  call (Broadcast 2 [sink 0 10; sink 1 11]) (Send 7) empty_world =
    (Ok tt,
     World ∅ ∅ ∅ {[10%nat := [7]; 11%nat := [7]]}
           [(2%nat, Send 7); (0%nat, Send 7); (1%nat, Send 7)] 0).
Proof.
  refine (broadcast_delivers_in_order 2%nat [sink 0 10; sink 1 11] 7
            empty_world _ _ _).
  - simpl. apply not_elem_of_empty.
  - vm_compute. reflexivity.
Defined.

Lemma for_each_map {A B} (f : B -> M unit) (g : A -> B) xs w :
  for_each f (map g xs) w = for_each (fun x => f (g x)) xs w.
Proof.
  revert w. induction xs as [|x xs IH]; intros w; simpl; [reflexivity|].
  unfold bind. destruct (f (g x) w) as [[[]|e|] w1]; auto.
Qed.

(** [fail(e)] on a live broadcast (lines 423-432) throws [e] into the
    targets in order.  As long as each target answers by returning or with
    [StopIteration] the round goes on, and after the last target [e] is
    raised to the caller.  The first target that raises a failure ends the
    round: that failure is raised to the caller and the targets after it
    are not notified.  Either way the broadcast has terminated. *)
Theorem broadcast_fail_round i ts e w :
  i ∉ finished w ->
  is_failure e = true ->
  (forall w1,
      for_each (fun t => throw_tolerant (call t) e) ts
               (logged i (Throw e) w) = (Ok tt, w1) ->
      call (Broadcast i ts) (Throw e) w = (Raise e, (set_finished i w1).2))
  /\ (forall e' w1,
      is_failure e' = true ->
      for_each (fun t => throw_tolerant (call t) e) ts
               (logged i (Throw e) w) = (Raise e', w1) ->
      call (Broadcast i ts) (Throw e) w = (Raise e', (set_finished i w1).2)).
Proof.
  intros Hlive He.
  assert (HE : is_Exception e = true) by (destruct e; done).
  assert (Hc : closing (Throw e) = false) by (destruct e; done).
  split.
  - intros w1 Hround. cbn [call].
    rewrite (generator_raises _ _ _ _ e _ w1 Hlive Hc He); [reflexivity|].
    unfold broadcast. unfold try_catch at 1. rewrite HE.
    unfold bind at 1. rewrite for_each_map. cbn [snd]. rewrite Hround.
    destruct e; try discriminate; reflexivity.
  - intros e' w1 He' Hround. cbn [call].
    rewrite (generator_raises _ _ _ _ e' _ w1 Hlive Hc He'); [reflexivity|].
    unfold broadcast. unfold try_catch at 1. rewrite HE.
    unfold bind at 1. rewrite for_each_map. cbn [snd]. rewrite Hround.
    destruct e'; try discriminate; reflexivity.
Qed.

Lemma broadcast_fail_round_witness :
  call (Broadcast 2 [sink 0 10; sink 1 11]) (Throw (Failure 0)) empty_world =
    (Raise (Failure 0),
     World ({[2%nat]} ∪ ({[0%nat]} ∪ ∅)) ∅ ∅ ∅
           [(2%nat, Throw (Failure 0)); (0%nat, Throw (Failure 0))] 0).
Proof.
  refine (proj2 (broadcast_fail_round 2%nat [sink 0 10; sink 1 11]
                   (Failure 0) empty_world _ _)
            (Failure 0)
            (World ({[0%nat]} ∪ ∅) ∅ ∅ ∅
                   [(2%nat, Throw (Failure 0)); (0%nat, Throw (Failure 0))] 0)
            _ _).
  - simpl. apply not_elem_of_empty.
  - reflexivity.
  - reflexivity.
  - vm_compute. reflexivity.
Defined.

(** ** Default stages, continued *)

(** Every default routine lets an exception raised at its [yield] go by. *)
Lemma default_body_throw r i target e w :
  default_routine r = true ->
  is_failure e = true ->
  filter_body r i target (Throw e) w = (Raise e, w).
Proof.
  intros Hr He. destruct r; try discriminate; simpl; try reflexivity.
  unfold append, try_catch, raise.
  destruct e; try discriminate; reflexivity.
Qed.

(** A failure raised by a filter's own logic on an item (lines 227-233):
    the item goes no further, the failure is thrown into the target, with
    whatever that raises dropped, the stage terminates and the failure is
    raised to the caller. *)
Theorem own_failure_forwarded i f t v e w :
  i ∉ finished w ->
  f v = inl e ->
  is_failure e = true ->
  call (Filter i (Transform f) (Some t)) (Send v) w =
    (record i (Send v) ;;
     try_catch (call t (Throw e)) (fun _ => ret tt) ;;
     set_finished i ;;
     raise e) w.
Proof.
  intros Hlive Hf He. cbn [call filter_body].
  rewrite (generator_raises _ _ _ (Send v) e _ (logged i (Send v) w)
             Hlive eq_refl He).
  - reflexivity.
  - unfold transform_body. rewrite Hf. reflexivity.
Qed.

Lemma own_failure_forwarded_witness :
  call (Filter 1 (rejecting 5 0) (Some (sink 0 10))) (Send 5) empty_world =
    (Raise (Failure 0),
     World ({[1%nat]} ∪ ({[0%nat]} ∪ ∅)) ∅ ∅ ∅
           [(1%nat, Send 5); (0%nat, Throw (Failure 0))] 0).
Proof.
  refine (own_failure_forwarded 1%nat _ (sink 0 10) 5 (Failure 0)
            empty_world _ _ _).
  - simpl. apply not_elem_of_empty.
  - reflexivity.
  - reflexivity.
Defined.

(** ** Chains of default stages *)

Lemma chain_throw stages tail e w wt :
  stages <> [] ->
  Forall (fun s : nat * routine =>
            default_routine s.2 = true /\ s.1 ∉ finished w) stages ->
  is_failure e = true ->
  try_catch (call_opt tail (Throw e)) (fun _ => ret tt)
            (logged_all (map (fun s => (s.1, Throw e)) stages) w)
    = (Ok tt, wt) ->
  call_opt (chain stages tail) (Throw e) w =
    (Raise e, finished_all stages.*1 wt).
Proof.
  intros Hne Hall He. revert w wt Hall.
  induction stages as [|[i r] rest IH]; [congruence|].
  intros w wt Hall Htail.
  apply Forall_cons in Hall as [[Hr Hlive] Hrest]. simpl in Hr, Hlive.
  assert (Hc : closing (Throw e) = false) by (destruct e; done).
  cbn [chain call_opt call].
  rewrite (generator_raises _ _ _ (Throw e) e _ (logged i (Throw e) w)
             Hlive Hc He (default_body_throw _ _ _ _ _ Hr He)).
  change (match chain rest tail with
          | Some g' => Some (call g')
          | None => None
          end) with (option_map call (chain rest tail)).
  unfold bind.
  destruct rest as [|s2 rest'].
  - cbn [chain]. unfold logged_all in Htail. cbn [map fst] in Htail.
    unfold logged. destruct tail as [t|]; cbn [option_map call_opt] in *.
    + rewrite Htail. reflexivity.
    + unfold try_catch, ret in *. injection Htail as <-. reflexivity.
  - assert (Hne' : s2 :: rest' <> []) by discriminate.
    specialize (IH Hne' (logged i (Throw e) w) wt Hrest).
    destruct (chain (s2 :: rest') tail) as [g'|] eqn:Hch;
      [|destruct s2; discriminate].
    cbn [option_map call_opt] in *.
    unfold try_catch. rewrite IH; [reflexivity|].
    unfold logged_all, logged in *. cbn [map fst log finished glets
      bound_value lists next_id] in *.
    rewrite <- app_assoc. exact Htail.
Qed.

(** [fail(e)] on the head of a chain of live default stages runs down the
    whole chain: every stage is sent [fail(e)] in order, the tail is sent
    it last (whatever it raises is dropped), every stage of the chain
    terminates, and [e] is raised to the caller. *)
Theorem fail_cascades stages tail e w wt :
  stages <> [] ->
  Forall (fun s : nat * routine =>
            default_routine s.2 = true /\ s.1 ∉ finished w) stages ->
  is_failure e = true ->
  try_catch (call_opt tail (Throw e)) (fun _ => ret tt)
            (logged_all (map (fun s => (s.1, Throw e)) stages) w)
    = (Ok tt, wt) ->
  call_opt (chain stages tail) (Throw e) w =
    (Raise e, finished_all stages.*1 wt).
Proof. exact (chain_throw stages tail e w wt). Qed.

Lemma fail_cascades_witness :
  call (Filter 2 (Appender 12) (Some two_stage_gen)) (Throw (Failure 0))
       empty_world =
    (Raise (Failure 0),
     World ({[2%nat]} ∪ ({[1%nat]} ∪ ({[0%nat]} ∪ ∅))) ∅ ∅ ∅
           [(2%nat, Throw (Failure 0)); (1%nat, Throw (Failure 0));
            (0%nat, Throw (Failure 0))] 0).
Proof.
  refine (fail_cascades
            [(2%nat, Appender 12); (1%nat, Appender 11); (0%nat, Appender 10)]
            None (Failure 0) empty_world
            (World ∅ ∅ ∅ ∅
                   [(2%nat, Throw (Failure 0)); (1%nat, Throw (Failure 0));
                    (0%nat, Throw (Failure 0))] 0) _ _ _ _).
  - discriminate.
  - repeat constructor; simpl; apply not_elem_of_empty.
  - reflexivity.
  - reflexivity.
Defined.

Lemma generator_closes i target body w w0 :
  i ∉ finished w ->
  body Close (logged i Close w) = (Raise GeneratorExit, w0) ->
  propagate_exceptions i target body Close w =
    (let! x := attempt match target with
                       | Some t => t Close
                       | None => ret tt
                       end in
     finish_close i x) w0.
Proof.
  intros Hlive Hbody.
  cbv [propagate_exceptions bind record modify get attempt pep479 handlers
       it_close try_catch set_finished raise ret finish_close closing].
  cbn [finished]. destruct (decide _) as [Hfin|_]; [contradiction|].
  fold (logged i Close w). rewrite Hbody. simpl.
  destruct target as [t|]; simpl; [|reflexivity].
  destruct (t Close w0) as [[[]|e|] w1]; simpl; try reflexivity.
  destruct (decide (e = StopIteration)) as [->|]; simpl; [reflexivity|].
  destruct (decide (e = GeneratorExit)) as [->|]; reflexivity.
Qed.

Lemma plain_body_close r i target w :
  plain_routine r = true ->
  filter_body r i target Close w = (Raise GeneratorExit, w).
Proof. intros Hr. destruct r; try discriminate; reflexivity. Qed.

(** [finalize()] on the head of a chain of live stages without cleanup of
    their own runs down the whole chain: every stage is sent [finalize()]
    once, head first, then the tail; when the tail's finalize returns, so
    does the head's, and when it raises a failure, that failure is raised
    by every stage up to the caller.  Either way every stage of the chain
    has terminated. *)
Theorem finalize_cascades stages tail w r wt :
  stages <> [] ->
  Forall (fun s : nat * routine =>
            plain_routine s.2 = true /\ s.1 ∉ finished w) stages ->
  call_opt tail Close (logged_all (map (fun s => (s.1, Close)) stages) w)
    = (r, wt) ->
  r = Ok tt \/ (exists e, r = Raise e /\ is_failure e = true) ->
  call_opt (chain stages tail) Close w = (r, finished_all stages.*1 wt).
Proof.
  intros Hne Hall Htail Hr. revert w wt Hall Htail.
  induction stages as [|[i rt] rest IH]; [congruence|].
  intros w wt Hall Htail.
  apply Forall_cons in Hall as [[Hp Hlive] Hrest]. simpl in Hp, Hlive.
  cbn [chain call_opt call].
  rewrite (generator_closes _ _ _ _ (logged i Close w) Hlive
             (plain_body_close _ _ _ _ Hp)).
  change (match chain rest tail with
          | Some g' => Some (call g')
          | None => None
          end) with (option_map call (chain rest tail)).
  assert (Hdown :
    match option_map call (chain rest tail) with
    | Some t => t Close
    | None => ret tt
    end (logged i Close w) = (r, finished_all rest.*1 wt)).
  { destruct rest as [|s2 rest'].
    - cbn [chain]. unfold logged_all in Htail. cbn [map fst] in Htail.
      unfold logged. destruct tail as [t|]; cbn [option_map call_opt] in *;
        rewrite Htail; destruct wt; reflexivity.
    - assert (Hne' : s2 :: rest' <> []) by discriminate.
      specialize (IH Hne' (logged i Close w) wt Hrest).
      destruct (chain (s2 :: rest') tail) as [g'|] eqn:Hch;
        [|destruct s2; discriminate].
      cbn [option_map call_opt] in *. apply IH.
      unfold logged_all, logged in *. cbn [map fst log finished glets
        bound_value lists next_id] in *.
      rewrite <- app_assoc. exact Htail. }
  unfold bind, attempt. rewrite Hdown.
  destruct Hr as [->|(e & -> & He)].
  - reflexivity.
  - unfold finish_close, bind, set_finished, modify, raise.
    destruct e; try discriminate; reflexivity.
Qed.

Lemma finalize_cascades_witness :
  call (Filter 2 (Appender 12) (Some two_stage_gen)) Close empty_world =
    (Ok tt,
     World ({[2%nat]} ∪ ({[1%nat]} ∪ ({[0%nat]} ∪ ∅))) ∅ ∅ ∅
           [(2%nat, Close); (1%nat, Close); (0%nat, Close)] 0).
Proof.
  refine (finalize_cascades
            [(2%nat, Appender 12); (1%nat, Appender 11); (0%nat, Appender 10)]
            None empty_world (Ok tt)
            (World ∅ ∅ ∅ ∅ [(2%nat, Close); (1%nat, Close); (0%nat, Close)] 0)
            _ _ _ _).
  - discriminate.
  - repeat constructor; simpl; apply not_elem_of_empty.
  - reflexivity.
  - left. reflexivity.
Defined.

Lemma chain_some stages t : exists g, chain stages (Some t) = Some g.
Proof. destruct stages as [|[i r] rest]; simpl; eauto. Qed.

(** A chain of live transforms hands its tail the value of their
    composition: each stage is sent what the stages before it made of the
    item, in order, and when the tail takes the final value the head's
    [send] returns, with every stage still alive. *)
Theorem transforms_compose stages tail x y w wt :
  Forall (fun s : nat * (Z -> exn + Z) => s.1 ∉ finished w) stages ->
  pipe_through stages.*2 x = inr y ->
  call tail (Send y) (logged_all (sends_through stages x) w) = (Ok tt, wt) ->
  call_opt (chain (transforms stages) (Some tail)) (Send x) w = (Ok tt, wt).
Proof.
  revert x w. induction stages as [|[i f] rest IH]; intros x w Hall Hthrough.
  - injection Hthrough as <-. unfold logged_all. rewrite app_nil_r.
    destruct w. simpl. auto.
  - apply Forall_cons in Hall as [Hlive Hrest]. simpl in Hlive.
    cbn [fmap list_fmap snd pipe_through sends_through] in *.
    destruct (f x) as [e|x1] eqn:Hf; [discriminate|].
    intros Htail. cbn [transforms map chain call_opt call fst snd].
    fold (transforms rest).
    destruct (chain_some (transforms rest) tail) as [g' Hg'].
    rewrite Hg' in *.
    apply generator_yields; [exact Hlive | reflexivity |].
    cbn [filter_body]. unfold transform_body. rewrite Hf.
    unfold bind, send_req.
    specialize (IH x1 (logged i (Send x) w) Hrest Hthrough).
    cbn [call_opt] in IH. rewrite IH; [reflexivity|].
    unfold logged_all, logged in *. cbn [log finished glets bound_value
      lists next_id] in *.
    rewrite <- app_assoc. exact Htail.
Qed.

Lemma transforms_compose_witness :
  call (Filter 2 double (Some (Filter 1 double (Some (sink 0 10)))))
       (Send 3) empty_world =
    (Ok tt,
     World ∅ ∅ ∅ {[10%nat := [12]]}
           [(2%nat, Send 3); (1%nat, Send 6); (0%nat, Send 12)] 0).
Proof.
  refine (transforms_compose
            [(2%nat, fun item => inr (item * 2));
             (1%nat, fun item => inr (item * 2))]
            (sink 0 10) 3 12 empty_world _ _ _ _).
  - repeat constructor; simpl; apply not_elem_of_empty.
  - reflexivity.
  - vm_compute. reflexivity.
Defined.

Lemma elem_of_finish_all j ids F : j ∈ ids -> j ∈ finish_all ids F.
Proof.
  induction ids as [|i ids IH]; simpl; intros H.
  - inversion H.
  - apply elem_of_cons in H as [->|H]; [set_solver|].
    apply elem_of_union_r, IH, H.
Qed.

Lemma transforms_default (stages : list (nat * (Z -> exn + Z))) w :
  Forall (fun s : nat * (Z -> exn + Z) => s.1 ∉ finished w) stages ->
  Forall (fun s : nat * routine =>
            default_routine s.2 = true /\ s.1 ∉ finished w)
         (transforms stages).
Proof.
  induction 1 as [|[i f] rest H _ IH]; constructor; auto.
Qed.

Lemma transforms_ids (stages : list (nat * (Z -> exn + Z))) :
  (transforms stages).*1 = stages.*1.
Proof.
  induction stages as [|[i f] rest IH]; [reflexivity|].
  cbn [transforms map]. rewrite !fmap_cons. cbn [fst]. f_equal. exact IH.
Qed.

(** The stage whose own logic raises, at the head of what is left of the
    chain. *)
Lemma chain_fails_at_head i f post tail x e w wt :
  i ∉ finished w ->
  Forall (fun s : nat * (Z -> exn + Z) => s.1 ∉ finished w) post ->
  f x = inl e ->
  is_failure e = true ->
  try_catch (call_opt tail (Throw e)) (fun _ => ret tt)
            (logged_all ((i, Send x) :: map (fun s => (s.1, Throw e)) post) w)
    = (Ok tt, wt) ->
  call (Filter i (Transform f) (chain (transforms post) tail)) (Send x) w =
    (Raise e, finished_all (i :: post.*1) wt).
Proof.
  intros Hlive Hpost Hf He Htail. cbn [call filter_body].
  rewrite (generator_raises _ _ _ (Send x) e _ (logged i (Send x) w)
             Hlive eq_refl He);
    [|unfold transform_body; rewrite Hf; reflexivity].
  change (match chain (transforms post) tail with
          | Some g' => Some (call g')
          | None => None
          end) with (option_map call (chain (transforms post) tail)).
  unfold bind. destruct post as [|s2 post'].
  - cbn [transforms map chain]. unfold logged_all in Htail.
    cbn [map] in Htail. unfold logged.
    destruct tail as [t|]; cbn [option_map call_opt] in *.
    + rewrite Htail. reflexivity.
    + unfold try_catch, ret in *. injection Htail as <-. reflexivity.
  - pose proof (chain_throw (transforms (s2 :: post')) tail e
                  (logged i (Send x) w) wt) as Hdown.
    destruct (chain (transforms (s2 :: post')) tail) as [g'|] eqn:Hch;
      [|destruct s2; discriminate].
    cbn [option_map call_opt] in *. unfold try_catch.
    rewrite Hdown.
    + rewrite transforms_ids. reflexivity.
    + destruct s2; discriminate.
    + apply transforms_default. exact Hpost.
    + exact He.
    + unfold logged_all, logged in *. cbn [log finished glets bound_value
        lists next_id] in *.
      rewrite <- app_assoc. unfold transforms. rewrite map_map.
      exact Htail.
Qed.

(** A failure of a transform's own logic anywhere in a chain of live
    transforms.  The stages before it have each been sent the value made
    so far; the failing stage throws the failure down the rest of the
    chain, stage after stage, and last into the tail; every stage of the
    chain terminates; on the way back up each stage before the failing one
    throws the failure at its target, which has terminated already, and
    raises it, so that it reaches the caller of the head. *)
Theorem chain_failure pre i f post tail x x' e w wt :
  Forall (fun s : nat * (Z -> exn + Z) => s.1 ∉ finished w)
         (pre ++ (i, f) :: post) ->
  pipe_through pre.*2 x = inr x' ->
  f x' = inl e ->
  is_failure e = true ->
  try_catch (call_opt tail (Throw e)) (fun _ => ret tt)
            (logged_all (sends_through (pre ++ (i, f) :: post) x ++
                         map (fun s => (s.1, Throw e)) post) w)
    = (Ok tt, wt) ->
  call_opt (chain (transforms (pre ++ (i, f) :: post)) tail) (Send x) w =
    (Raise e,
     logged_all (map (fun j => (j, Throw e)) (rev (tl (pre.*1 ++ [i]))))
                (finished_all (pre ++ (i, f) :: post).*1 wt)).
Proof.
  intros Hall Hpre Hf He. revert x w Hall Hpre.
  induction pre as [|[i0 f0] pre' IH]; intros x w Hall Hpre Htail.
  - injection Hpre as ->. cbn [app] in *.
    apply Forall_cons in Hall as [Hlive Hpost]. simpl in Hlive.
    cbn [sends_through] in Htail. rewrite Hf in Htail.
    cbn [transforms map chain call_opt fst snd]. fold (transforms post).
    rewrite (chain_fails_at_head i f post tail x' e w wt Hlive Hpost Hf He
               Htail).
    unfold logged_all, finished_all. simpl. rewrite app_nil_r. reflexivity.
  - cbn [app fmap list_fmap snd pipe_through] in *.
    apply Forall_cons in Hall as [Hlive Hrest]. simpl in Hlive.
    cbn [sends_through] in Htail.
    destruct (f0 x) as [e0|x1] eqn:Hf0; [discriminate|].
    specialize (IH x1 (logged i0 (Send x) w) Hrest Hpre).
    cbn [transforms map chain call_opt fst snd].
    fold (transforms (pre' ++ (i, f) :: post)).
    destruct (chain (transforms (pre' ++ (i, f) :: post)) tail)
      as [g'|] eqn:Hch; [|destruct pre' as [|[]]; discriminate].
    assert (Hid : gen_id g' :: tl (pre'.*1 ++ [i]) = pre'.*1 ++ [i]).
    { destruct pre' as [|[i1 f1] pre'']; cbn in Hch;
        injection Hch as <-; reflexivity. }
    cbn [call_opt] in IH.
    assert (Hdown := IH). clear IH.
    match type of Hdown with ?P -> _ => assert (HP : P) end.
    { unfold logged_all, logged in *. cbn [log finished glets bound_value
        lists next_id] in *.
      rewrite <- !app_assoc in *. exact Htail. }
    specialize (Hdown HP). clear HP.
    cbn [call filter_body].
    erewrite (generator_raises _ _ _ (Send x) e _ _ Hlive eq_refl He);
      [|unfold transform_body; rewrite Hf0; unfold bind, send_req;
        rewrite Hdown; reflexivity].
    unfold bind, try_catch.
    rewrite call_finished.
    2:{ cbn [logged_all finished_all finished].
        apply elem_of_finish_all.
        rewrite fmap_app, fmap_cons. cbn [fst].
        apply elem_of_app.
        destruct pre' as [|[i1 f1] pre'']; cbn in Hch; injection Hch as <-;
          cbn [gen_id]; [right|left]; rewrite ?fmap_cons; cbn [fst];
          apply elem_of_cons; left; reflexivity. }
    cbn [ret set_finished modify raise logged logged_all finished_all
         finished glets bound_value lists log next_id fst snd].
    assert (Hlist :
      map (fun j => (j, Throw e)) (rev (pre'.*1 ++ [i])) =
      map (fun j => (j, Throw e)) (rev (tl (pre'.*1 ++ [i]))) ++
      [(gen_id g', Throw e)]).
    { rewrite <- Hid at 1. cbn [rev]. rewrite map_app. reflexivity. }
    unfold raise, logged_all, finished_all.
    cbn [finished glets bound_value lists log next_id list.tail].
    rewrite <- app_assoc, <- Hlist. reflexivity.
Qed.

Lemma chain_failure_witness :
  call (Filter 2 double (Some (Filter 1 (rejecting 6 0) (Some (sink 0 10)))))
       (Send 3) empty_world =
    (Raise (Failure 0),
     World ({[2%nat]} ∪ ({[1%nat]} ∪ ({[0%nat]} ∪ ∅))) ∅ ∅ ∅
           [(2%nat, Send 3); (1%nat, Send 6); (0%nat, Throw (Failure 0));
            (1%nat, Throw (Failure 0))] 0).
Proof.
  refine (chain_failure
            [(2%nat, fun item => inr (item * 2))] 1%nat
            (fun item => if decide (item = 6) then inl (Failure 0)
                         else inr item)
            [] (Some (sink 0 10)) 3 6 (Failure 0) empty_world
            (World ({[0%nat]} ∪ ∅) ∅ ∅ ∅
                   [(2%nat, Send 3); (1%nat, Send 6);
                    (0%nat, Throw (Failure 0))] 0) _ _ _ _ _).
  - repeat constructor; simpl; apply not_elem_of_empty.
  - reflexivity.
  - reflexivity.
  - reflexivity.
  - vm_compute. reflexivity.
Defined.

(** An [appender] whose target has terminated, sent an item (lines
    469-473 under lines 196-233): the item is appended to the list, the
    target answers [send] with [StopIteration], which leaves the body of
    [appender] as [RuntimeError]; that error is thrown at the target (to
    no effect), the stage terminates, and [RuntimeError] reaches the
    caller. *)
Theorem send_into_finished_target i k t v w :
  i ∉ finished w ->
  gen_id t ∈ finished w ->
  call (Filter i (Appender k) (Some t)) (Send v) w =
    (Raise RuntimeError,
     World ({[i]} ∪ finished w) (glets w) (bound_value w)
           (<[k := default [] (lists w !! k) ++ [v]]> (lists w))
           (log w ++ [(i, Send v); (gen_id t, Send v);
                      (gen_id t, Throw RuntimeError)])
           (next_id w)).
Proof.
  intros Hlive Hfin. cbn [call filter_body].
  cbv [propagate_exceptions bind record modify get attempt pep479 handlers
       try_catch set_finished raise ret appender list_append send_opt
       closing].
  cbn [finished]. destruct (decide _) as [H|_]; [contradiction|].
  rewrite (call_finished t (Send v)) by exact Hfin. simpl.
  rewrite (call_finished t (Throw RuntimeError)) by exact Hfin. simpl.
  rewrite <- !app_assoc. reflexivity.
Qed.

Lemma send_into_finished_target_witness :
  call two_stage_gen (Send 4) (World {[0%nat]} ∅ ∅ ∅ [] 2) =
    (Raise RuntimeError,
     World ({[1%nat]} ∪ {[0%nat]}) ∅ ∅ {[11%nat := [4]]}
           [(1%nat, Send 4); (0%nat, Send 4); (0%nat, Throw RuntimeError)]
           2).
Proof.
  refine (send_into_finished_target 1%nat 11%nat (Filter 0 (Appender 10) None)
            4 (World {[0%nat]} ∅ ∅ ∅ [] 2) _ _).
  - simpl. rewrite elem_of_singleton. lia.
  - simpl. apply elem_of_singleton. reflexivity.
Defined.

(** ** The source driver *)

Lemma resolve_binds s target w g s' w' :
  resolve s target w = (Ok g, s', w') -> spec_bound s' = Some g.
Proof.
  destruct s as [fn kwargs b|lhs rhs b]; simpl.
  - destruct (coroutine fn _ w) as [[g0|e|] w0]; intros [= <- <- <-];
      reflexivity.
  - destruct (resolve rhs target w) as [[[r|e|] rhs'] w1]; try discriminate.
    destruct (resolve lhs (Some r) w1) as [[[l|e|] lhs'] w2];
      intros [= <- <- <-]; reflexivity.
Qed.

Lemma spec_call_bound s g o w :
  spec_bound s = Some g ->
  spec_call o (s, w) = ((call g o w).1, (s, (call g o w).2)).
Proof.
  intros Hb. unfold spec_call, bind, get, on_world. cbn [fst snd].
  rewrite Hb. cbn [fst snd]. destruct (call g o w). reflexivity.
Qed.

(** The first call through an unresolved descriptor resolves it, without
    a target, and goes on as on the resolved descriptor. *)
Lemma spec_call_unbound s g s' o w w0 :
  spec_bound s = None ->
  resolve s None w = (Ok g, s', w0) ->
  spec_call o (s, w) = spec_call o (s', w0).
Proof.
  intros Hb Hres.
  rewrite (spec_call_bound s' g) by exact (resolve_binds _ _ _ _ _ _ Hres).
  unfold spec_call, bind, get, resolve_self, on_world. cbn [fst snd].
  rewrite Hb. cbn [fst snd]. rewrite Hres. cbn [fst snd].
  destruct (call g o w0). reflexivity.
Qed.

Lemma for_each_spec_bound s g values w :
  spec_bound s = Some g ->
  for_each (fun v => spec_call (Send v)) values (s, w) =
    ((for_each (fun v => call g (Send v)) values w).1,
     (s, (for_each (fun v => call g (Send v)) values w).2)).
Proof.
  intros Hb. revert w. induction values as [|v values IH]; intros w;
    [reflexivity|].
  cbn [for_each]. unfold bind. rewrite (spec_call_bound s g) by exact Hb.
  destruct (call g (Send v) w) as [[[]|e|] w1]; cbn [fst snd];
    [apply IH| |]; reflexivity.
Qed.

Lemma source_or_unbound s g s' values w w0 :
  spec_bound s = None ->
  resolve s None w = (Ok g, s', w0) ->
  source_or values (s, w) = source_or values (s', w0).
Proof.
  intros Hb Hres. unfold source_or, iter_source.
  destruct values as [|v values].
  - cbn [for_each]. unfold bind, try_catch, ret.
    rewrite (spec_call_unbound s g s' Close w w0 Hb Hres). reflexivity.
  - cbn [for_each]. unfold bind, try_catch.
    rewrite (spec_call_unbound s g s' (Send v) w w0 Hb Hres). reflexivity.
Qed.



Lemma for_each_app_raise {A} (f : A -> M unit) pre v post w w1 e w2 :
  for_each f pre w = (Ok tt, w1) ->
  f v w1 = (Raise e, w2) ->
  for_each f (pre ++ v :: post) w = (Raise e, w2).
Proof.
  revert w. induction pre as [|x pre IH]; intros w; cbn [for_each app].
  - unfold ret. intros [= <-] Hv. unfold bind. rewrite Hv. reflexivity.
  - unfold bind. destruct (f x w) as [[[]|e0|] w0]; try discriminate.
    apply IH.
Qed.

(** When a [send] raises (lines 405-410): the values before have been
    delivered, the failure is thrown at the head, which has terminated and
    raises it again, and it reaches the caller of [__or__]; the values
    after the failing one are never delivered, and the driver does not
    close the pipeline. *)
Theorem source_fails s g s' pre v post w w0 w1 e w2 :
  spec_bound s = None ->
  resolve s None w = (Ok g, s', w0) ->
  for_each (fun x => call g (Send x)) pre w0 = (Ok tt, w1) ->
  call g (Send v) w1 = (Raise e, w2) ->
  is_Exception e = true ->
  source_or (pre ++ v :: post) (s, w) =
    (Raise e, (s', logged (gen_id g) (Throw e) w2)).
Proof.
  intros Hb Hres Hpre Hv He.
  rewrite (source_or_unbound s g s' _ w w0 Hb Hres).
  pose proof (resolve_binds _ _ _ _ _ _ Hres) as Hb'.
  unfold source_or, iter_source. unfold bind, try_catch.
  rewrite (for_each_spec_bound s' g _ w0 Hb').
  rewrite (for_each_app_raise _ pre v post w0 w1 e w2 Hpre Hv).
  cbn [fst snd]. rewrite He.
  rewrite (spec_call_bound s' g (Throw e) w2 Hb').
  rewrite (call_finished g (Throw e) w2).
  - cbn [fst snd]. destruct (decide (e = StopIteration)); reflexivity.
  - revert Hv. destruct (call_generator g) as (target & body & ->).
    apply generator_send_raise_finishes.
Qed.

Lemma source_fails_witness :
  source_or [0; 1; 2] (reject_collect 7, empty_world) =
    (Raise (Failure 0),
     ((resolve (reject_collect 7) None empty_world).1.2,
      logged 1 (Throw (Failure 0))
        (call (reject_collect_gen 7) (Send 1)
              (call (reject_collect_gen 7) (Send 0)
                    (World ∅ ∅ ∅ ∅ [] 2)).2).2)).
Proof.
  apply (source_fails (reject_collect 7) (reject_collect_gen 7)
           (resolve (reject_collect 7) None empty_world).1.2
           [0] 1 [2] empty_world (World ∅ ∅ ∅ ∅ [] 2)
           (call (reject_collect_gen 7) (Send 0) (World ∅ ∅ ∅ ∅ [] 2)).2).
  - reflexivity.
  - vm_compute. reflexivity.
  - vm_compute. reflexivity.
  - vm_compute. reflexivity.
  - reflexivity.
Defined.

(** ** Resolution, continued *)

(** Composition is associative at run time (lines 263-268): however three
    descriptors are nested, resolution binds the last first, then the
    middle one to it, then the first, and yields the same head generator
    in the same world. *)
Theorem resolve_associative a b c x y x' y' target w :
  (resolve (Pipe (Pipe a b x) c y) target w).1.1 =
    (resolve (Pipe a (Pipe b c x') y') target w).1.1
  /\ (resolve (Pipe (Pipe a b x) c y) target w).2 =
       (resolve (Pipe a (Pipe b c x') y') target w).2.
Proof.
  cbn [resolve].
  destruct (resolve c target w) as [[[gc|e|] c'] w1]; cbn [fst snd];
    [|split; reflexivity..].
  destruct (resolve b (Some gc) w1) as [[[gb|e|] b'] w2]; cbn [fst snd];
    [|split; reflexivity..].
  destruct (resolve a (Some gb) w2) as [[[ga|e|] a'] w3]; cbn [fst snd];
    split; reflexivity.
Qed.

(** A generator that [coroutine] hands out has the identity that was next
    and holds the [target] keyword it was called with. *)
Lemma coroutine_ok fn kwargs w g w' :
  coroutine fn kwargs w = (Ok g, w') ->
  next_id w' = S (next_id w)
  /\ g = match fn with
         | FRoutine r => Filter (next_id w) r (kwargs !! "target")
         | FBroadcast ts => Broadcast (next_id w) ts
         end.
Proof.
  unfold coroutine. unfold bind at 1, fresh_id.
  unfold bind at 1, attempt, pep479, try_catch at 1, handlers, try_catch at 1.
  unfold bind at 1 2, check_call.
  destruct (decide _) as [Hdom|Hdom].
  2:{ unfold raise at 1. cbn [is_Exception].
      destruct (kwargs !! "target") as [t|]; cbn.
      - unfold bind, try_catch.
        destruct (call t _ _) as [[[]|e|] w1]; cbn; discriminate.
      - discriminate. }
  destruct fn as [r|ts]; [destruct r as [k| |f|last|pf]|];
    destruct (kwargs !! "target") as [t|] eqn:Ht; cbn;
    try (intros [= <- <-]; split; reflexivity);
    try (unfold bind, try_catch;
         destruct (call t _ _) as [[[]|e|] w1]; cbn; discriminate);
    try discriminate.
  - unfold bridge_start. destruct (start pf) as [outs n].
    destruct outs as [|o outs]; [destruct n as [s|e]|]; cbn;
      try (intros [= <- <-]; split; reflexivity).
    unfold bind, try_catch. destruct (is_Exception e); cbn.
    + destruct (call t _ _) as [[[]|e1|] w1]; cbn;
        try destruct (decide _); discriminate.
    + destruct (call t _ _) as [[[]|e1|] w1]; cbn;
        try destruct (decide _); discriminate.
  - unfold bridge_start. destruct (start pf) as [outs n].
    destruct outs as [|o outs]; [destruct n as [s|e]|]; cbn;
      try (intros [= <- <-]; split; reflexivity).
    destruct (is_Exception e); cbn; try destruct (decide _); discriminate.
Qed.

(** Resolving a [PipeElement] a second time (lines 295-302): the target
    written into its keywords by the first resolution is still there, so
    a second resolution without a target makes a new generator of the same
    routine that holds the very target of the first. *)
Theorem reresolve_shares_target r kwargs b t w g s1 w1 g' s2 w2 :
  resolve (PipeElement (FRoutine r) kwargs b) (Some t) w = (Ok g, s1, w1) ->
  resolve s1 None w1 = (Ok g', s2, w2) ->
  g = Filter (next_id w) r (Some t)
  /\ g' = Filter (S (next_id w)) r (Some t).
Proof.
  cbn [resolve].
  destruct (coroutine _ _ w) as [[g0|e|] w0] eqn:Hfirst; try discriminate.
  intros [= <- <- <-].
  apply coroutine_ok in Hfirst as [Hnext ->].
  rewrite lookup_insert_eq. cbn [resolve].
  destruct (coroutine _ _ w0) as [[g1|e|] w3] eqn:Hsecond; try discriminate.
  intros [= <- _ _].
  apply coroutine_ok in Hsecond as [_ ->].
  rewrite lookup_insert_eq, Hnext. split; reflexivity.
Qed.

Lemma reresolve_shares_target_witness :
  Filter 1 (Appender 11) (Some (sink 0 10)) =
    Filter (next_id (World ∅ ∅ ∅ ∅ [] 1)) (Appender 11) (Some (sink 0 10))
  /\ Filter 2 (Appender 11) (Some (sink 0 10)) =
    Filter (S (next_id (World ∅ ∅ ∅ ∅ [] 1))) (Appender 11)
           (Some (sink 0 10)).
Proof.
  apply (reresolve_shares_target (Appender 11) ∅ None (sink 0 10)
           (World ∅ ∅ ∅ ∅ [] 1) _
           (PipeElement (FRoutine (Appender 11)) {["target" := sink 0 10]}
                        (Some (Filter 1 (Appender 11) (Some (sink 0 10)))))
           (World ∅ ∅ ∅ ∅ [] 2) _
           (PipeElement (FRoutine (Appender 11)) {["target" := sink 0 10]}
                        (Some (Filter 2 (Appender 11) (Some (sink 0 10)))))
           (World ∅ ∅ ∅ ∅ [] 3)).
  - reflexivity.
  - reflexivity.
Defined.

(** [null()] and [broadcast(...)] take no [target] (lines 415-416,
    476-477): resolving one of them with a target, as a pipe that puts a
    stage after it does, raises [TypeError] when the generator is first
    advanced; by lines 227-233 the error is thrown at that target first,
    and the descriptor keeps the target in its keywords. *)
Theorem resolve_rejects_target fn kwargs b t w w1 :
  takes_no_target fn = true ->
  try_catch (call t (Throw TypeError)) (fun _ => ret tt) (fresh_id w).2
    = (Ok tt, w1) ->
  resolve (PipeElement fn kwargs b) (Some t) w =
    (Raise TypeError,
     PipeElement fn (<["target" := t]> kwargs) b,
     (set_finished (next_id w) w1).2).
Proof.
  intros Hfn Hthrow. cbn [resolve].
  assert (Hcheck : forall w0,
    check_call fn (<["target" := t]> kwargs) w0 = (Raise TypeError, w0)).
  { intros w0. unfold check_call. destruct (decide _); [|reflexivity].
    rewrite lookup_insert_eq.
    destruct fn as [[]|]; try discriminate; reflexivity. }
  unfold coroutine. unfold bind at 1, fresh_id.
  rewrite lookup_insert_eq.
  unfold bind at 1, attempt, pep479, try_catch at 1, handlers, try_catch at 1.
  unfold bind at 1. rewrite Hcheck.
  cbn [is_Exception]. unfold bind at 1.
  unfold fresh_id in Hthrow. cbn [snd] in Hthrow. rewrite Hthrow.
  reflexivity.
Qed.

Lemma resolve_rejects_target_witness :
  resolve (element Null) (Some (sink 0 10)) (World ∅ ∅ ∅ ∅ [] 1) =
    (Raise TypeError,
     PipeElement (FRoutine Null) {["target" := sink 0 10]} None,
     World ({[1%nat]} ∪ ({[0%nat]} ∪ ∅)) ∅ ∅ ∅ [(0%nat, Throw TypeError)] 2).
Proof.
  refine (resolve_rejects_target (FRoutine Null) ∅ None (sink 0 10)
            (World ∅ ∅ ∅ ∅ [] 1)
            (World ({[0%nat]} ∪ ∅) ∅ ∅ ∅ [(0%nat, Throw TypeError)] 2) _ _).
  - reflexivity.
  - vm_compute. reflexivity.
Defined.

(** ** The iterator bridge, continued *)

(** A wrapped generator function that yields a value before it first
    reads its input (lines 357-358, 367-373).  The value is what the
    first [g_consume.switch()] hands back, and it is dropped: the bridge
    is made with the routine parked at that [yield], and the target has
    received nothing.  The first item delivered afterwards merely resumes
    the routine from there: the routine runs on to its first read, the
    item is never handed to it, and nothing is forwarded. *)
Theorem bridge_early_output fn o s t w v :
  start fn = ([o], inl s) ->
  next_id w ∉ finished w ->
  coroutine (FRoutine (IterFilter fn)) {["target" := t]} w =
    (Ok (Filter (next_id w) (IterFilter fn) (Some t)),
     World (finished w) (<[next_id w := GEmit [] (KPull s)]> (glets w))
           (bound_value w) (lists w) (log w) (S (next_id w)))
  /\ call (Filter (next_id w) (IterFilter fn) (Some t)) (Send v)
          (World (finished w) (<[next_id w := GEmit [] (KPull s)]> (glets w))
                 (bound_value w) (lists w) (log w) (S (next_id w))) =
       (Ok tt,
        World (finished w) (<[next_id w := GPull s]> (glets w))
              ({[next_id w]} ∪ bound_value w) (lists w)
              (log w ++ [(next_id w, Send v)]) (S (next_id w))).
Proof.
  intros Hstart Hfresh. split.
  - pose proof (lookup_singleton_eq (M := gmap string) "target" t) as Hl.
    unfold coroutine. unfold bind at 1, fresh_id. rewrite !Hl.
    unfold bind at 1, attempt, pep479, try_catch at 1, handlers,
      try_catch at 1.
    unfold bind at 1 2, check_call.
    destruct (decide _) as [_|Hdom].
    2:{ exfalso. apply Hdom. rewrite dom_singleton_L. reflexivity. }
    unfold ret at 1.
    unfold bridge_start. rewrite Hstart. reflexivity.
  - cbn [call filter_body].
    apply generator_yields; [exact Hfresh | reflexivity |].
    unfold iter_filter, try_catch. unfold bind at 1, resume, bind at 1, get.
    cbn [logged glets]. rewrite lookup_insert_eq.
    cbn [default from_option id run_on].
    cbv [bind set_glet modify ret set_bound_value get pending_of].
    cbn [glets]. rewrite lookup_insert_eq. cbn [forward]. unfold ret.
    cbn [logged finished glets bound_value lists log next_id].
    rewrite insert_insert_eq. reflexivity.
Qed.

Lemma bridge_early_output_witness :
  coroutine (FRoutine (IterFilter with_header)) {["target" := sink 0 10]}
            (World ∅ ∅ ∅ ∅ [] 1) =
    (Ok (Filter 1 (IterFilter with_header) (Some (sink 0 10))),
     World ∅ (<[1%nat := GEmit [] (KPull [])]> ∅) ∅ ∅ [] 2)
  /\ call (Filter 1 (IterFilter with_header) (Some (sink 0 10))) (Send 5)
          (World ∅ (<[1%nat := GEmit [] (KPull [])]> ∅) ∅ ∅ [] 2) =
       (Ok tt,
        World ∅ (<[1%nat := GPull []]> ∅) ({[1%nat]} ∪ ∅) ∅
              [(1%nat, Send 5)] 2).
Proof.
  refine (bridge_early_output with_header 0 [] (sink 0 10)
            (World ∅ ∅ ∅ ∅ [] 1) 5 _ _).
  - reflexivity.
  - simpl. apply not_elem_of_empty.
Defined.

(** The forwarding loop when the target refuses an output: the outputs
    before it have gone downstream, the failure leaves the loop, and the
    greenlet keeps the outputs after it. *)
Lemma forward_fails fn i t k e post o w2 :
  i ∉ gen_ids t ->
  forall pre h rest w w1,
    h :: rest = pre ++ o :: post ->
    for_each (fun x => call t (Send x)) pre w = (Ok tt, w1) ->
    call t (Send o) w1 = (Raise e, w2) ->
    forward fn i (Some (call t)) rest (Value h)
            (parked i (GEmit rest k) w) =
      (Raise e, parked i (GEmit post k) w2).
Proof.
  intros Hi. induction pre as [|p pre IH]; intros h rest w w1 Hlist Hpre Ho.
  - cbn [app] in Hlist. injection Hlist as -> ->.
    cbn [for_each] in Hpre. injection Hpre as ->.
    destruct post; cbn [forward send_opt]; unfold bind at 1;
      rewrite (call_parked _ _ _ _ _ Hi), Ho; reflexivity.
  - cbn [app] in Hlist. injection Hlist as -> ->.
    cbn [for_each] in Hpre. unfold bind in Hpre.
    destruct (call t (Send p) w) as [[[]|e0|] w0] eqn:Hp; try discriminate.
    destruct (pre ++ o :: post) as [|h' rest'] eqn:Hrest;
      [destruct pre; discriminate|].
    cbn [forward send_opt]. unfold bind at 1.
    rewrite (call_parked _ _ _ _ _ Hi), Hp. cbn [fst snd].
    unfold bind at 1, resume, bind at 1, get. cbn [parked glets].
    rewrite lookup_insert_eq. cbn [default from_option id run_on].
    unfold bind. fold (parked i (GEmit (h' :: rest') k) w0).
    rewrite set_glet_parked. unfold ret.
    apply (IH h' rest' w0 w1 eq_refl Hpre Ho).
Qed.

(** A [deliver] on a bridge during which the target refuses one of the
    outputs (lines 370-373 under lines 227-233): the outputs before it
    have been forwarded, the refused one ends the loop, the outputs after
    it stay with the routine and are never forwarded; the failure is
    thrown at the target, which has terminated, the bridge terminates and
    the failure reaches the caller. *)
Theorem bridge_forward_failure fn i t s s' v pre o post e w w1 w2 :
  i ∉ gen_ids t ->
  i ∉ finished w ->
  glets w !! i = Some (GPull s) ->
  on_item fn s v = (pre ++ o :: post, inl s') ->
  for_each (fun x => call t (Send x)) pre (logged i (Send v) w)
    = (Ok tt, w1) ->
  call t (Send o) w1 = (Raise e, w2) ->
  is_failure e = true ->
  call (Filter i (IterFilter fn) (Some t)) (Send v) w =
    (Raise e,
     (set_finished i
        (logged (gen_id t) (Throw e)
                (parked i (GEmit post (KPull s')) w2))).2).
Proof.
  intros Hi Hlive Hg Hitem Hpre Ho He. cbn [call filter_body].
  assert (Hfin : gen_id t ∈ finished w2).
  { revert Ho. destruct (call_generator t) as (target & body & ->).
    apply generator_send_raise_finishes. }
  rewrite (generator_raises _ _ _ (Send v) e _
             (parked i (GEmit post (KPull s')) w2) Hlive eq_refl He).
  - unfold bind, try_catch.
    rewrite (call_parked _ _ _ _ _ Hi).
    rewrite (call_finished t (Throw e) w2 Hfin). reflexivity.
  - unfold iter_filter, try_catch. unfold bind at 1.
    rewrite (resume_item _ _ s) by exact Hg. rewrite Hitem.
    cbn [fst snd next_cont].
    destruct (pre ++ o :: post) as [|h rest] eqn:Hlist;
      [destruct pre; discriminate|].
    cbn [run_on].
    cbv [bind set_glet modify ret set_bound_value get pending_of].
    cbn [glets]. rewrite lookup_insert_eq.
    match goal with |- context [forward _ _ _ _ _ ?w0] =>
      change w0 with (parked i (GEmit rest (KPull s')) (logged i (Send v) w))
    end.
    rewrite (forward_fails fn i t (KPull s') e post o w2 Hi pre h rest
               (logged i (Send v) w) w1 (eq_sym Hlist) Hpre Ho).
    destruct e; try discriminate; reflexivity.
Qed.

Lemma bridge_forward_failure_witness :
  call (Filter 2 (IterFilter passthrough)
               (Some (Filter 1 (rejecting 5 0) (Some (sink 0 10)))))
       (Send 5) (World ∅ {[2%nat := GPull []]} ∅ ∅ [] 3) =
    (Raise (Failure 0),
     World ({[2%nat]} ∪ ({[1%nat]} ∪ ({[0%nat]} ∪ ∅)))
           (<[2%nat := GEmit [] (KPull [])]> {[2%nat := GPull []]})
           ({[2%nat]} ∪ ∅) ∅
           [(2%nat, Send 5); (1%nat, Send 5); (0%nat, Throw (Failure 0));
            (1%nat, Throw (Failure 0))] 3).
Proof.
  refine (bridge_forward_failure passthrough 2%nat
            (Filter 1 (rejecting 5 0) (Some (sink 0 10))) [] [] 5 [] 5 []
            (Failure 0) (World ∅ {[2%nat := GPull []]} ∅ ∅ [] 3)
            (World ∅ {[2%nat := GPull []]} ∅ ∅ [(2%nat, Send 5)] 3)
            (World ({[1%nat]} ∪ ({[0%nat]} ∪ ∅)) {[2%nat := GPull []]} ∅ ∅
                   [(2%nat, Send 5); (1%nat, Send 5);
                    (0%nat, Throw (Failure 0))] 3)
            _ _ _ _ _ _ _).
  - vm_compute. intros H. repeat (inversion H as [|? ? ? H']; clear H;
      rename H' into H). 
  - simpl. apply not_elem_of_empty.
  - reflexivity.
  - reflexivity.
  - reflexivity.
  - vm_compute. reflexivity.
  - reflexivity.
Defined.

(** [fail(e)] on a bridge whose routine catches the failure of its input
    and yields an output (lines 362-373).  What [g_consume.throw(e)]
    hands back, that output, is not assigned to [value], so the output is
    dropped.  If an item has been delivered before, [value] still holds
    the sentinel: the loop is skipped and [fail] returns as if nothing had
    happened, the routine parked at its output.  If no item has been
    delivered yet, [value] is unbound: the bridge ends with
    [UnboundLocalError], which is thrown at the target and raised. *)
Theorem bridge_fail_recovering fn i t s e o rest e' w :
  is_failure e = true ->
  i ∉ finished w ->
  glets w !! i = Some (GPull s) ->
  on_error fn s e = (o :: rest, e') ->
  (i ∈ bound_value w ->
   call (Filter i (IterFilter fn) (Some t)) (Throw e) w =
     (Ok tt,
      World (finished w) (<[i := GEmit rest (KRaise e')]> (glets w))
            (bound_value w) (lists w) (log w ++ [(i, Throw e)])
            (next_id w)))
  /\ (i ∉ bound_value w ->
      call (Filter i (IterFilter fn) (Some t)) (Throw e) w =
        (record i (Throw e) ;;
         set_glet i (GEmit rest (KRaise e')) ;;
         try_catch (call t (Throw UnboundLocalError)) (fun _ => ret tt) ;;
         set_finished i ;;
         raise UnboundLocalError) w).
Proof.
  intros He Hlive Hg Herr.
  assert (HE : is_Exception e = true) by (destruct e; done).
  assert (Hc : closing (Throw e) = false) by (destruct e; done).
  assert (Hrun : resume fn i (RThrow e) (logged i (Throw e) w) =
                 (set_glet i (GEmit rest (KRaise e')) ;; ret (Value o))
                   (logged i (Throw e) w)).
  { cbv [resume bind get]. cbn [logged glets]. rewrite Hg. simpl.
    rewrite Herr. reflexivity. }
  split; intros Hb; cbn [call filter_body].
  - apply generator_yields; [exact Hlive | exact Hc |].
    unfold iter_filter, try_catch. rewrite HE. unfold bind at 1.
    rewrite Hrun. cbv [bind set_glet modify ret get]. cbn [bound_value logged].
    destruct (decide _) as [_|Hn]; [reflexivity | contradiction].
  - rewrite (generator_raises _ _ _ (Throw e) UnboundLocalError _
               (set_glet i (GEmit rest (KRaise e')) (logged i (Throw e) w)).2
               Hlive Hc eq_refl).
    + reflexivity.
    + unfold iter_filter, try_catch. rewrite HE. unfold bind at 1.
      rewrite Hrun. cbv [bind set_glet modify ret get raise].
      cbn [bound_value logged].
      destruct (decide _) as [Hy|_]; [contradiction | reflexivity].
Qed.

Lemma bridge_fail_recovering_witness :
  call (Filter 1 (IterFilter recovering) (Some (sink 0 10)))
       (Throw (Failure 0)) (World ∅ {[1%nat := GPull []]} ∅ ∅ [] 2) =
    (Raise UnboundLocalError,
     World ({[1%nat]} ∪ ({[0%nat]} ∪ ∅))
           (<[1%nat := GEmit [] (KRaise (Failure 0))]>
              {[1%nat := GPull []]})
           ∅ ∅
           [(1%nat, Throw (Failure 0)); (0%nat, Throw UnboundLocalError)] 2).
Proof.
  refine (proj2 (bridge_fail_recovering recovering 1%nat (sink 0 10) []
                   (Failure 0) (-1) [] (Failure 0)
                   (World ∅ {[1%nat := GPull []]} ∅ ∅ [] 2) _ _ _ _) _).
  - reflexivity.
  - simpl. apply not_elem_of_empty.
  - reflexivity.
  - reflexivity.
  - simpl. apply not_elem_of_empty.
Defined.

(** ** Dictionary filters *)

Lemma project_restricts keys data k v :
  project keys data !! k = Some v <-> k ∈ keys /\ data !! k = Some v.
Proof.
  unfold project. rewrite map_lookup_filter_Some. cbn. tauto.
Qed.

(** Two [project] stages in a row keep the keys both of them list: the
    second projection of a projected row is the projection on the keys of
    the second that the first lists too.  So the order of two projections
    does not matter to the row, and a projection done twice is done
    once. *)
Theorem project_compose ks1 ks2 data :
  project ks1 (project ks2 data) = project (filter (.∈ ks2) ks1) data.
Proof.
  apply map_eq. intros k. apply option_eq. intros v.
  rewrite !project_restricts, list_elem_of_filter. tauto.
Qed.

(** [rename] where none of the old names is a key of the row: the row is
    sent on as it is, and each rename logs one warning, in order, that
    carries the row; none with [quiet]. *)
Theorem rename_missing renames quiet data :
  Forall (fun r => data !! r.1 = None) renames ->
  rename renames quiet data =
    (data, if quiet then [] else map (fun r => (r.1, r.2, data)) renames).
Proof.
  induction 1 as [|[old_name new_name] rest Hr _ IH]; cbn [rename].
  - by destruct quiet.
  - unfold dict_pop. cbn [fst] in Hr. rewrite Hr, IH.
    by destruct quiet.
Qed.

Lemma rename_missing_witness :
  rename [("x", "y"); ("z", "a")] false row_ab =
    (row_ab, [("x", "y", row_ab); ("z", "a", row_ab)]).
Proof.
  apply (rename_missing [("x", "y"); ("z", "a")] false row_ab).
  repeat constructor.
Defined.

(** [quiet] only silences [rename]: the row it sends on is the one it
    sends on without [quiet], and nothing is logged. *)
Theorem rename_quiet renames data :
  rename renames true data = ((rename renames false data).1, []).
Proof.
  revert data. induction renames as [|[old_name new_name] rest IH];
    intros data; cbn [rename]; [done|].
  unfold dict_pop. destruct (data !! old_name) as [v|]; [apply IH|].
  rewrite IH. by destruct (rename rest false data).
Qed.

(** The renames of [rename] are carried out one after the other, not in
    parallel: renaming [a] to [b] and [b] to [a] in one call does not
    swap the two.  [a] keeps its value, [b] is gone with whatever it
    held; a round trip over a key [b] the row does not have gives the row
    back.  No warning is logged. *)
Theorem rename_swap a b v quiet data :
  a <> b ->
  data !! a = Some v ->
  rename [(a, b); (b, a)] quiet data = (delete b data, []).
Proof.
  intros Hab Ha. cbn [rename]. unfold dict_pop. rewrite Ha.
  rewrite lookup_insert_eq. f_equal.
  rewrite delete_insert_eq, <- delete_insert_ne by done.
  rewrite insert_delete_eq, insert_id; done.
Qed.

Lemma rename_swap_witness :
  rename [("a", "b"); ("b", "a")] false row_ab = (delete "b" row_ab, []).
Proof.
  apply (rename_swap "a" "b" (PyInt 1) false row_ab); [done|reflexivity].
Defined.

(** [rename] is a parallel rename where the names are all different:
    with old and new names pairwise distinct and every old name a key of
    the row, nothing is logged, each new name holds what its old name
    held, the old names are gone, and every other key is as it was. *)
Theorem rename_disjoint renames quiet data :
  NoDup (renames.*1 ++ renames.*2) ->
  Forall (fun r => is_Some (data !! r.1)) renames ->
  (rename renames quiet data).2 = []
  /\ (forall old_name new_name,
        (old_name, new_name) ∈ renames ->
        (rename renames quiet data).1 !! new_name = data !! old_name)
  /\ (forall k, k ∈ renames.*1 ->
        (rename renames quiet data).1 !! k = None)
  /\ (forall k, k ∉ renames.*1 -> k ∉ renames.*2 ->
        (rename renames quiet data).1 !! k = data !! k).
Proof.
  revert data. induction renames as [|[o n] rest IH]; intros data Hnd Hall.
  - cbn [rename fst snd]. split_and!; [done| | |done].
    + intros ? ? H. by apply elem_of_nil in H.
    + intros ? H. by apply elem_of_nil in H.
  - cbn [rename]. unfold dict_pop.
    apply Forall_cons in Hall as [[v Hv] Hall]. cbn [fst] in Hv. rewrite Hv.
    rewrite !fmap_cons in Hnd. cbn [fst snd] in Hnd.
    apply NoDup_cons in Hnd as [Ho Hnd].
    apply NoDup_app in Hnd as (Hnd1 & Hdisj & Hnd2).
    apply NoDup_cons in Hnd2 as [Hn Hnd2].
    apply not_elem_of_app in Ho as [Ho1 Ho2].
    apply not_elem_of_cons in Ho2 as [Hon Ho2].
    assert (Hn1 : n ∉ rest.*1).
    { intros Hin. apply (Hdisj _ Hin). left. }
    set (data' := <[n := v]> (delete o data)).
    assert (Hsame : forall k, k <> o -> k <> n -> data' !! k = data !! k).
    { intros k ? ?. unfold data'.
      rewrite lookup_insert_ne, lookup_delete_ne; done. }
    assert (Hfst : forall x y, (x, y) ∈ rest -> x ∈ rest.*1).
    { intros x y Hxy. apply list_elem_of_fmap. by exists (x, y). }
    assert (Hsnd : forall x y, (x, y) ∈ rest -> y ∈ rest.*2).
    { intros x y Hxy. apply list_elem_of_fmap. by exists (x, y). }
    destruct (IH data') as (Hw & Hren & Hold & Hother).
    { apply NoDup_app. split_and!; [done| |done].
      intros x Hx Hx'. apply (Hdisj _ Hx). by right. }
    { apply Forall_forall. intros [x y] Hxy. cbn [fst].
      rewrite Hsame.
      - by apply (proj1 (Forall_forall _ _) Hall (x, y)).
      - intros ->. apply Ho1. by eapply Hfst.
      - intros ->. apply Hn1. by eapply Hfst. }
    split_and!.
    + exact Hw.
    + intros x y Hxy. apply elem_of_cons in Hxy as [Heq|Hxy].
      * injection Heq as -> ->. rewrite Hother by done.
        unfold data'. by rewrite lookup_insert_eq.
      * rewrite (Hren _ _ Hxy). apply Hsame.
        -- intros ->. apply Ho1. by eapply Hfst.
        -- intros ->. apply Hn1. by eapply Hfst.
    + intros k Hk. rewrite fmap_cons in Hk. cbn [fst] in Hk.
      apply elem_of_cons in Hk as [->|Hk]; [|by apply Hold].
      rewrite Hother by done. unfold data'.
      rewrite lookup_insert_ne by done. apply lookup_delete_eq.
    + intros k Hk1 Hk2. rewrite fmap_cons in Hk1, Hk2. cbn [fst snd] in *.
      apply not_elem_of_cons in Hk1 as [? ?].
      apply not_elem_of_cons in Hk2 as [? ?].
      rewrite Hother by done. by apply Hsame.
Qed.

Lemma rename_disjoint_witness :
  (rename [("a", "x"); ("b", "y")] false row_ab).1 !! "x" = Some (PyInt 1).
Proof.
  refine (proj1 (proj2 (rename_disjoint [("a", "x"); ("b", "y")] false
                          row_ab _ _)) "a" "x" _).
  - compute_done.
  - repeat constructor; by eexists.
  - left.
Defined.

Lemma dict_get_lookup (data : dict) k :
  dict_get data k = match data !! k with Some v => v | None => PyNone end.
Proof. unfold dict_get. by destruct (data !! k). Qed.

Lemma set_default_key_lookup default default_is_key key data v0 k :
  fill default default_is_key data = Found v0 ->
  exists data',
    set_default_key default default_is_key key data = Found data'
    /\ fill default default_is_key data' = Found v0
    /\ data' !! k =
         if decide (k = key) then
           if is_None (dict_get data k) then Some v0 else data !! k
         else data !! k.
Proof.
  intros Hfill. unfold set_default_key.
  destruct (is_None (dict_get data key)) eqn:Hnone.
  - exists (<[key := v0]> data).
    assert (Hstep : (if default_is_key
                     then match getitem data default with
                          | Found v => Found (<[key := v]> data)
                          | KeyError k0 => KeyError k0
                          end
                     else Found (<[key := default]> data)) =
                    Found (<[key := v0]> data)).
    { unfold fill in Hfill. destruct default_is_key.
      - by rewrite Hfill.
      - by injection Hfill as ->. }
    rewrite Hstep. split_and!; [done| |].
    + unfold fill in *. destruct default_is_key; [|done].
      unfold getitem in *. destruct default as [| |s]; try done.
      destruct (decide (s = key)) as [->|Hne].
      * rewrite lookup_insert_eq.
        destruct (data !! key) as [u|] eqn:Hu; [|done].
        injection Hfill as ->. rewrite dict_get_lookup, Hu in Hnone.
        by destruct v0.
      * by rewrite lookup_insert_ne.
    + destruct (decide (k = key)) as [->|Hne].
      * by rewrite lookup_insert_eq, Hnone.
      * by rewrite lookup_insert_ne.
  - exists data. split_and!; [done..|].
    destruct (decide (k = key)) as [->|Hne]; [by rewrite Hnone|done].
Qed.

Lemma set_default_keys_lookup default default_is_key keys data v0 :
  fill default default_is_key data = Found v0 ->
  exists data',
    set_default_keys default default_is_key keys data = Found data'
    /\ forall k,
         data' !! k =
           if decide (k ∈ keys) then
             if is_None (dict_get data k) then Some v0 else data !! k
           else data !! k.
Proof.
  revert data. induction keys as [|key rest IH]; intros data Hfill.
  - exists data. split; [done|]. intros k.
    destruct (decide (k ∈ [])) as [H|_]; [by apply elem_of_nil in H|done].
  - cbn [set_default_keys].
    destruct (set_default_key_lookup default default_is_key key data v0 key
                Hfill) as (data1 & Hstep & Hfill1 & _).
    rewrite Hstep. destruct (IH data1 Hfill1) as (data' & Hrest & Hlook).
    exists data'. split; [done|]. intros k. rewrite Hlook.
    destruct (set_default_key_lookup default default_is_key key data v0 k
                Hfill) as (data1' & Hstep' & _ & Hk).
    rewrite Hstep in Hstep'. injection Hstep' as <-.
    rewrite (dict_get_lookup data1), Hk. clear Hk Hlook.
    destruct (decide (k = key)) as [->|Hne].
    + rewrite (decide_True (P := key ∈ key :: rest)) by (by left).
      destruct (is_None (dict_get data key)) eqn:Hn.
      * by destruct (decide (key ∈ rest)), (is_None v0).
      * rewrite <- dict_get_lookup, Hn. by destruct (decide (key ∈ rest)).
    + rewrite <- dict_get_lookup.
      destruct (decide (k ∈ rest)) as [Hin|Hnin].
      * by rewrite (decide_True (P := k ∈ key :: rest)) by (by right).
      * rewrite (decide_False (P := k ∈ key :: rest)); [done|].
        intros [?|?]%elem_of_cons; done.
Qed.

(** [set_default] where the default is there, given as a value or found
    in the row under the key [default]: no [KeyError]; each of the named
    keys that is missing or holds [None] holds the default afterwards, a
    named key with a value keeps it, every other key is as it was. *)
Theorem set_default_fills value default default_is_key data v0 :
  fill default default_is_key data = Found v0 ->
  exists data',
    set_default value default default_is_key data = Found data'
    /\ forall k,
         data' !! k =
           if decide (k ∈ named value) then
             if is_None (dict_get data k) then Some v0 else data !! k
           else data !! k.
Proof.
  intros Hfill. destruct value as [key|keys]; cbn [set_default named].
  - destruct (set_default_key_lookup default default_is_key key data v0 key
                Hfill) as (data' & Hstep & _ & _).
    exists data'. split; [done|]. intros k.
    destruct (set_default_key_lookup default default_is_key key data v0 k
                Hfill) as (data'' & Hstep' & _ & Hk).
    rewrite Hstep in Hstep'. injection Hstep' as <-. rewrite Hk.
    destruct (decide (k = key)) as [->|Hne].
    + by rewrite decide_True by (by left).
    + rewrite decide_False; [done|]. by intros ?%list_elem_of_singleton.
  - by apply set_default_keys_lookup.
Qed.

Lemma set_default_fills_witness :
  exists data' : dict,
    set_default (inr ["a"; "b"; "d"]) (PyStr "c") true row_gaps = Found data'
    /\ forall k,
         data' !! k =
           if decide (k ∈ ["a"; "b"; "d"]) then
             if is_None (dict_get row_gaps k) then Some (PyInt 3)
             else row_gaps !! k
           else row_gaps !! k.
Proof.
  apply (set_default_fills (inr ["a"; "b"; "d"]) (PyStr "c") true row_gaps
           (PyInt 3)).
  reflexivity.
Defined.

Lemma set_default_keys_missing default keys data :
  getitem data default = KeyError default ->
  set_default_keys default true keys data =
    if forallb (fun k => negb (is_None (dict_get data k))) keys
    then Found data else KeyError default.
Proof.
  intros Hmiss. induction keys as [|key rest IH]; [done|].
  cbn [set_default_keys forallb]. unfold set_default_key.
  destruct (is_None (dict_get data key)); cbn [negb andb].
  - by rewrite Hmiss.
  - exact IH.
Qed.

(** [set_default] with [default_is_key] where the row has no key
    [default]: a row in which every named key holds a value is sent on as
    it is; otherwise the stage fails with [KeyError(default)]. *)
Theorem set_default_missing value default data :
  getitem data default = KeyError default ->
  set_default value default true data =
    if forallb (fun k => negb (is_None (dict_get data k))) (named value)
    then Found data else KeyError default.
Proof.
  intros Hmiss. destruct value as [key|keys]; cbn [set_default named].
  - rewrite <- (set_default_keys_missing default [key] data Hmiss).
    cbn [set_default_keys]. by destruct (set_default_key default true key data).
  - by apply set_default_keys_missing.
Qed.

Lemma set_default_missing_witness :
  set_default (inr ["b"; "a"]) (PyStr "z") true row_gaps =
    KeyError (PyStr "z").
Proof.
  apply (set_default_missing (inr ["b"; "a"]) (PyStr "z") row_gaps).
  reflexivity.
Defined.

(** *** Dicts in insertion order *)

Section Alist.
Context {V : Type}.
Implicit Types (d : list (string * V)) (k : string) (v : V).

Lemma alookup_assign d k v k' :
  alookup (assign d k v) k' = if decide (k' = k) then Some v else alookup d k'.
Proof.
  induction d as [|[k0 v0] d IH]; cbn [assign alookup].
  - destruct (decide (k = k')), (decide (k' = k)); congruence.
  - destruct (decide (k0 = k)) as [->|Hne]; cbn [alookup].
    + destruct (decide (k = k')), (decide (k' = k)); congruence.
    + rewrite IH. destruct (decide (k0 = k')), (decide (k' = k)); congruence.
Qed.

Lemma alookup_None d k : alookup d k = None <-> k ∉ d.*1.
Proof.
  induction d as [|[k0 v0] d IH]; cbn [alookup].
  - split; [intros _ H; by apply elem_of_nil in H|done].
  - rewrite fmap_cons, not_elem_of_cons. cbn [fst].
    destruct (decide (k0 = k)) as [->|Hne]; [split; [done|tauto]|].
    rewrite IH. split; [by split|tauto].
Qed.

Lemma alookup_Some d k v : NoDup d.*1 -> alookup d k = Some v <-> (k, v) ∈ d.
Proof.
  induction d as [|[k0 v0] d IH]; cbn [alookup]; intros Hnd.
  - split; [done|intros H; by apply elem_of_nil in H].
  - rewrite fmap_cons in Hnd. apply NoDup_cons in Hnd as [Hk0 Hnd].
    rewrite elem_of_cons. destruct (decide (k0 = k)) as [->|Hne].
    + split; [intros [= ->]; by left|].
      intros [[= ->]|Hin]; [done|]. exfalso. apply Hk0.
      apply list_elem_of_fmap. by exists (k, v).
    + rewrite (IH Hnd). split; [by right|]. intros [[= -> ->]|?]; done.
Qed.

Lemma assign_keys d k v :
  (assign d k v).*1 = if decide (k ∈ d.*1) then d.*1 else d.*1 ++ [k].
Proof.
  induction d as [|[k0 v0] d IH]; cbn [assign].
  - rewrite decide_False; [done|]. intros H. by apply elem_of_nil in H.
  - destruct (decide (k0 = k)) as [->|Hne].
    + rewrite decide_True; [done|]. rewrite fmap_cons. by left.
    + rewrite !fmap_cons, IH. cbn [fst].
      destruct (decide (k ∈ d.*1)) as [Hin|Hnin].
      * rewrite decide_True; [done|]. by right.
      * rewrite decide_False; [done|].
        intros [?|?]%elem_of_cons; done.
Qed.

Lemma assign_NoDup d k v : NoDup d.*1 -> NoDup (assign d k v).*1.
Proof.
  intros Hnd. rewrite assign_keys. destruct (decide (k ∈ d.*1)); [done|].
  apply NoDup_app. split_and!; [done| |apply NoDup_singleton].
  intros x Hx ->%list_elem_of_singleton. done.
Qed.

End Alist.

(** *** The pending renames *)

Lemma scan_NoDup r quiet keys P ws :
  NoDup P.*1 -> NoDup (scan r quiet keys P ws).1.*1.
Proof.
  revert P ws. induction keys as [|key rest IH]; intros P ws Hnd; [done|].
  cbn [scan]. destruct (decide (sub r key = key)); [by apply IH|].
  destruct (negb quiet && bool_decide (key ∈ P.*1)); [by apply IH|].
  apply IH. by apply assign_NoDup.
Qed.

Lemma scan_alookup r quiet keys P ws k :
  alookup (scan r quiet keys P ws).1 k =
    if decide (k ∈ keys /\ sub r k <> k) then
      if quiet then Some (sub r k)
      else Some (default (sub r k) (alookup P k))
    else alookup P k.
Proof.
  revert P ws. induction keys as [|key rest IH]; intros P ws.
  - cbn [scan fst]. rewrite decide_False; [done|].
    intros [H _]. by apply elem_of_nil in H.
  - cbn [scan]. destruct (decide (sub r key = key)) as [Hsame|Hdiff].
    { rewrite IH. destruct (decide (k ∈ rest /\ sub r k <> k)) as [[? ?]|Hn].
      - rewrite decide_True; [done|]. split; [by right|done].
      - rewrite decide_False; [done|].
        intros [[->|?]%elem_of_cons ?]; [done|]. by apply Hn. }
    destruct (negb quiet && bool_decide (key ∈ P.*1)) eqn:Hwarn.
    { apply andb_prop in Hwarn as [Hq Hin]. destruct quiet; [done|].
      apply bool_decide_eq_true in Hin. rewrite IH.
      destruct (decide (k ∈ rest /\ sub r k <> k)) as [[? ?]|Hn].
      - rewrite decide_True; [done|]. split; [by right|done].
      - destruct (decide (k ∈ key :: rest /\ sub r k <> k))
          as [[[->|?]%elem_of_cons ?]|_]; [|tauto|done].
        destruct (alookup P key) as [n|] eqn:Hn'; [done|].
        by apply alookup_None in Hn'. }
    rewrite IH, !alookup_assign.
    destruct (decide (k = key)) as [->|Hne].
    + rewrite (decide_True (P := key ∈ key :: rest /\ _))
        by (split; [by left|done]).
      destruct (decide (key ∈ rest /\ sub r key <> key)).
      * destruct quiet; [done|]. cbn.
        destruct (alookup P key) as [n|] eqn:Hn'; [|done].
        cbn in Hwarn. apply bool_decide_eq_false in Hwarn.
        exfalso. apply Hwarn. apply dec_stable. intros Hnin.
        apply alookup_None in Hnin. congruence.
      * destruct quiet; [done|]. cbn in Hwarn.
        apply bool_decide_eq_false in Hwarn.
        apply alookup_None in Hwarn. by rewrite Hwarn.
    + destruct (decide (k ∈ rest /\ sub r k <> k)) as [[? ?]|Hn].
      * rewrite decide_True; [done|]. split; [by right|done].
      * rewrite decide_False; [done|].
        intros [[?|?]%elem_of_cons ?]; [done|]. by apply Hn.
Qed.

Lemma scan_all_NoDup renames quiet keys P ws :
  NoDup P.*1 -> NoDup (scan_all renames quiet keys P ws).1.*1.
Proof.
  revert P ws. induction renames as [|r rest IH]; intros P ws Hnd; [done|].
  cbn [scan_all]. pose proof (scan_NoDup r quiet keys P ws Hnd) as Hnd'.
  destruct (scan r quiet keys P ws) as [P' ws']. by apply IH.
Qed.

Lemma scan_all_first renames keys P ws k :
  alookup (scan_all renames false keys P ws).1 k =
    match alookup P k with
    | Some n => Some n
    | None => if decide (k ∈ keys) then first_match renames k else None
    end.
Proof.
  revert P ws. induction renames as [|r rest IH]; intros P ws.
  - cbn [scan_all fst first_match].
    by destruct (alookup P k), (decide (k ∈ keys)).
  - cbn [scan_all first_match].
    pose proof (scan_alookup r false keys P ws k) as Hs.
    destruct (scan r false keys P ws) as [P' ws']. cbn [fst] in Hs.
    rewrite IH, Hs.
    destruct (decide (k ∈ keys /\ sub r k <> k)) as [[Hk Hd]|Hn].
    + rewrite (decide_True _ _ Hk), (decide_False _ _ Hd).
      by destruct (alookup P k).
    + destruct (alookup P k); [done|].
      destruct (decide (k ∈ keys)); [|done].
      rewrite decide_True; [done|]. apply dec_stable. tauto.
Qed.

Lemma scan_all_last renames keys P ws k :
  alookup (scan_all renames true keys P ws).1 k =
    match (if decide (k ∈ keys) then last_match renames k else None) with
    | Some n => Some n
    | None => alookup P k
    end.
Proof.
  revert P ws. induction renames as [|r rest IH]; intros P ws.
  - cbn [scan_all fst last_match]. by destruct (decide (k ∈ keys)).
  - cbn [scan_all last_match].
    pose proof (scan_alookup r true keys P ws k) as Hs.
    destruct (scan r true keys P ws) as [P' ws']. cbn [fst] in Hs.
    rewrite IH, Hs.
    destruct (decide (k ∈ keys)) as [Hk|Hk].
    + destruct (last_match rest k); [done|].
      destruct (decide (sub r k = k)) as [Hd|Hd].
      * rewrite decide_False; [done|]. tauto.
      * by rewrite decide_True.
    + rewrite decide_False; [done|]. tauto.
Qed.

Lemma pending_lookup renames quiet keys k :
  alookup (scan_all renames quiet keys [] []).1 k =
    if decide (k ∈ keys) then
      if quiet then last_match renames k else first_match renames k
    else None.
Proof.
  destruct quiet.
  - rewrite scan_all_last. cbn [alookup].
    destruct (decide (k ∈ keys)); [|done]. by destruct (last_match renames k).
  - by rewrite scan_all_first.
Qed.

Lemma first_match_ne renames k n : first_match renames k = Some n -> n <> k.
Proof.
  induction renames as [|r rest IH]; cbn [first_match]; [done|].
  destruct (decide (sub r k = k)); [done|]. by intros [= <-].
Qed.

Lemma last_match_ne renames k n : last_match renames k = Some n -> n <> k.
Proof.
  induction renames as [|r rest IH]; cbn [last_match]; [done|].
  destruct (last_match rest k); [intros [= <-]; by apply IH|].
  destruct (decide (sub r k = k)); [done|]. by intros [= <-].
Qed.

Lemma pending_NoDup renames quiet items : NoDup (pending renames quiet items).*1.
Proof. apply scan_all_NoDup. cbn. apply NoDup_nil_2. Qed.

Lemma pending_elem renames quiet items o n :
  (o, n) ∈ pending renames quiet items <->
  o ∈ items.*1 /\ n <> o /\ new_name renames quiet o = n.
Proof.
  rewrite <- (alookup_Some _ _ _ (pending_NoDup renames quiet items)).
  unfold pending. rewrite pending_lookup. unfold new_name.
  destruct (decide (o ∈ items.*1)) as [Hin|Hnin]; [|split; [done|tauto]].
  destruct quiet.
  - destruct (last_match renames o) as [n'|] eqn:Hm; cbn.
    + apply last_match_ne in Hm. split; [intros [= <-]; done|].
      intros (_ & _ & ->). done.
    + split; [done|]. intros (_ & ? & ?). congruence.
  - destruct (first_match renames o) as [n'|] eqn:Hm; cbn.
    + apply first_match_ne in Hm. split; [intros [= <-]; done|].
      intros (_ & _ & ->). done.
    + split; [done|]. intros (_ & ? & ?). congruence.
Qed.

Lemma pending_old renames quiet items o :
  o ∈ (pending renames quiet items).*1 <->
  o ∈ items.*1 /\ new_name renames quiet o <> o.
Proof.
  rewrite list_elem_of_fmap. split.
  - intros ([o' n] & -> & Hin). apply pending_elem in Hin as (? & ? & <-).
    done.
  - intros [Hin Hne]. exists (o, new_name renames quiet o). split; [done|].
    apply pending_elem. done.
Qed.

Lemma source_elem P k o : source P k = Some o -> (o, k) ∈ P.
Proof.
  induction P as [|[o' n'] P IH]; cbn [source]; [done|].
  destruct (source P k) as [o''|].
  - intros [= ->]. right. by apply IH.
  - destruct (decide (n' = k)) as [->|]; [|done]. intros [= ->]. by left.
Qed.

Lemma source_is_Some P k : k ∈ P.*2 -> is_Some (source P k).
Proof.
  induction P as [|[o' n'] P IH]; cbn [source].
  - intros H. by apply elem_of_nil in H.
  - rewrite fmap_cons. cbn [snd]. intros [->|Hin]%elem_of_cons.
    + destruct (source P n'); [done|]. by rewrite decide_True.
    + destruct (IH Hin) as [o ->]. done.
Qed.

(** *** The three loops that build the new row *)

Lemma copy_renamed_lookup (data : dict) P (m : dict) :
  (forall o, o ∈ P.*1 -> is_Some (data !! o)) ->
  exists m' : dict,
    copy_renamed data P m = Found m'
    /\ forall k, m' !! k = match source P k with
                           | Some o => data !! o
                           | None => m !! k
                           end.
Proof.
  revert m. induction P as [|[o n] P IH]; intros m Hdom.
  - by exists m.
  - cbn [copy_renamed getitem].
    destruct (Hdom o) as [v Hv]; [rewrite fmap_cons; by left|].
    rewrite Hv. cbn [and_then].
    destruct (IH (<[n := v]> m)) as (m' & Hrun & Hlook).
    { intros o' Ho'. apply Hdom. rewrite fmap_cons. by right. }
    exists m'. split; [done|]. intros k. rewrite Hlook. cbn [source].
    destruct (source P k); [done|].
    destruct (decide (n = k)) as [->|Hne].
    + by rewrite lookup_insert_eq.
    + by rewrite lookup_insert_ne.
Qed.

Lemma pop_renamed_lookup olds values (m : dict) :
  NoDup olds ->
  (forall o, o ∈ olds -> o ∉ values -> is_Some (m !! o)) ->
  exists m' : dict,
    pop_renamed olds values m = Found m'
    /\ forall k, m' !! k =
                 if decide (k ∈ olds /\ k ∉ values) then None else m !! k.
Proof.
  revert m. induction olds as [|o olds IH]; intros m Hnd Hdom.
  - exists m. split; [done|]. intros k. rewrite decide_False; [done|].
    intros [H _]. by apply elem_of_nil in H.
  - apply NoDup_cons in Hnd as [Ho Hnd]. cbn [pop_renamed].
    destruct (decide (o ∈ values)) as [Hin|Hnin].
    + destruct (IH m Hnd) as (m' & Hrun & Hlook).
      { intros o' ? ?. apply Hdom; [by right|done]. }
      exists m'. split; [done|]. intros k. rewrite Hlook.
      destruct (decide (k ∈ olds /\ k ∉ values)) as [[? ?]|Hn].
      * rewrite decide_True; [done|]. split; [by right|done].
      * rewrite decide_False; [done|].
        intros [[->|?]%elem_of_cons ?]; [done|]. by apply Hn.
    + unfold dict_pop. destruct (Hdom o) as [v Hv]; [by left|done|].
      rewrite Hv. cbn [and_then snd].
      destruct (IH (delete o m) Hnd) as (m' & Hrun & Hlook).
      { intros o' Ho' Hv'. rewrite lookup_delete_ne by (by intros ->).
        apply Hdom; [by right|done]. }
      exists m'. split; [done|]. intros k. rewrite Hlook.
      destruct (decide (k = o)) as [->|Hne].
      * rewrite (decide_True (P := o ∈ o :: olds /\ _))
          by (split; [by left|done]).
        rewrite lookup_delete_eq.
        by destruct (decide (o ∈ olds /\ o ∉ values)).
      * rewrite lookup_delete_ne by done.
        destruct (decide (k ∈ olds /\ k ∉ values)) as [[? ?]|Hn].
        -- rewrite decide_True; [done|]. split; [by right|done].
        -- rewrite decide_False; [done|].
           intros [[?|?]%elem_of_cons ?]; [done|]. by apply Hn.
Qed.

Lemma copy_kept_lookup (data : dict) kept (m : dict) :
  (forall k, k ∈ kept -> is_Some (data !! k)) ->
  exists m' : dict,
    copy_kept data kept m = Found m'
    /\ forall k, m' !! k = if decide (k ∈ kept) then data !! k else m !! k.
Proof.
  revert m. induction kept as [|key kept IH]; intros m Hdom.
  - exists m. split; [done|]. intros k. rewrite decide_False; [done|].
    intros H. by apply elem_of_nil in H.
  - cbn [copy_kept getitem].
    destruct (Hdom key) as [v Hv]; [by left|]. rewrite Hv. cbn [and_then].
    destruct (IH (<[key := v]> m)) as (m' & Hrun & Hlook).
    { intros k Hk. apply Hdom. by right. }
    exists m'. split; [done|]. intros k. rewrite Hlook.
    destruct (decide (k ∈ kept)) as [Hin|Hnin].
    + rewrite decide_True; [done|]. by right.
    + destruct (decide (k = key)) as [->|Hne].
      * rewrite decide_True by (by left). by rewrite lookup_insert_eq.
      * rewrite lookup_insert_ne by done. rewrite decide_False; [done|].
        intros [?|?]%elem_of_cons; done.
Qed.

Lemma rename_regexp_lookup renames quiet items :
  NoDup items.*1 ->
  exists new_data : dict,
    (rename_regexp renames quiet items).1 = Found new_data
    /\ forall k,
         new_data !! k =
           if decide (k ∈ items.*1 /\ new_name renames quiet k = k) then
             (list_to_map items : dict) !! k
           else from_option (fun o => (list_to_map items : dict) !! o) None
                  (source (pending renames quiet items) k).
Proof.
  intros Hnd. unfold rename_regexp.
  pose proof (pending_old renames quiet items) as Hold.
  pose proof (pending_elem renames quiet items) as Helem.
  pose proof (pending_NoDup renames quiet items) as HndP.
  unfold pending in *.
  destruct (scan_all renames quiet items.*1 [] []) as [P ws].
  cbn [fst] in *.
  set (data := list_to_map items : dict).
  assert (Hdom : forall k, k ∈ items.*1 <-> is_Some (data !! k)).
  { intros k. rewrite <- not_eq_None_Some. unfold data.
    pose proof (not_elem_of_list_to_map (M := gmap string) items k) as Hk.
    split; [tauto|]. intros ?. apply dec_stable. tauto. }
  destruct (copy_renamed_lookup data P data) as (m1 & -> & H1).
  { intros o Ho. apply Hdom. apply Hold in Ho. tauto. }
  cbn [and_then].
  destruct (pop_renamed_lookup P.*1 P.*2 m1 HndP) as (m2 & -> & H2).
  { intros o Ho _. rewrite H1. destruct (source P o) as [o'|] eqn:Hs.
    - apply Hdom. apply source_elem, Helem in Hs. tauto.
    - apply Hdom. apply Hold in Ho. tauto. }
  cbn [and_then].
  destruct (copy_kept_lookup data (filter (fun key => key ∉ P.*1) items.*1) m2)
    as (m3 & -> & H3).
  { intros k Hk. apply list_elem_of_filter in Hk as [_ Hk]. by apply Hdom. }
  exists m3. split; [done|]. intros k. rewrite H3, H2, H1.
  destruct (decide (k ∈ items.*1 /\ new_name renames quiet k = k))
    as [[Hk Hsame]|Hn].
  - rewrite decide_True; [done|]. apply list_elem_of_filter. split; [|done].
    rewrite Hold. tauto.
  - rewrite decide_False.
    2:{ rewrite list_elem_of_filter, Hold. intros [Hk1 Hk2]. apply Hn.
        split; [done|]. apply dec_stable. tauto. }
    destruct (decide (k ∈ P.*1 /\ k ∉ P.*2)) as [[Hk1 Hk2]|Hn2].
    + destruct (source P k) as [o|] eqn:Hs; [|done].
      apply source_elem in Hs. exfalso. apply Hk2.
      apply list_elem_of_fmap. by exists (o, k).
    + destruct (source P k) as [o|] eqn:Hs; [done|]. cbn.
      destruct (data !! k) as [v|] eqn:Hv; [|done]. exfalso.
      assert (Hk : k ∈ items.*1) by (apply Hdom; by rewrite Hv).
      assert (Hk1 : k ∈ P.*1).
      { apply Hold. split; [done|]. intros ?. by apply Hn. }
      assert (Hk2 : k ∈ P.*2) by (apply dec_stable; tauto).
      apply source_is_Some in Hk2 as [? ?]. congruence.
Qed.

(** [rename_regexp] is a parallel rename.  Each key of the row gets its
    new name from the first rename that changes it, with [quiet] from the
    last one, and keeps its name if none does.  Where no two keys of the
    row get the same new name, the stage raises no [KeyError], the new
    row holds every value of the row under the new name of its key, and
    it has no other key.  Two keys can swap their names. *)
Theorem rename_regexp_parallel renames quiet items :
  NoDup items.*1 ->
  (forall k1 k2, k1 ∈ items.*1 -> k2 ∈ items.*1 ->
     new_name renames quiet k1 = new_name renames quiet k2 -> k1 = k2) ->
  exists new_data : dict,
    (rename_regexp renames quiet items).1 = Found new_data
    /\ (forall k v, (k, v) ∈ items ->
          new_data !! new_name renames quiet k = Some v)
    /\ (forall n, (forall k, k ∈ items.*1 -> new_name renames quiet k <> n) ->
          new_data !! n = None).
Proof.
  intros Hnd Hinj.
  destruct (rename_regexp_lookup renames quiet items Hnd)
    as (new_data & Hrun & Hlook).
  pose proof (pending_elem renames quiet items) as Helem.
  exists new_data. split; [done|]. split.
  - intros k v Hkv.
    assert (Hk : k ∈ items.*1).
    { apply list_elem_of_fmap. by exists (k, v). }
    assert (Hv : (list_to_map items : dict) !! k = Some v).
    { by apply elem_of_list_to_map. }
    rewrite Hlook.
    destruct (decide (new_name renames quiet k = k)) as [Hsame|Hdiff].
    + rewrite Hsame. by rewrite decide_True.
    + rewrite decide_False.
      2:{ intros [Hn1 Hn2]. apply Hdiff. by apply (Hinj _ _ Hn1 Hk). }
      destruct (source_is_Some (pending renames quiet items)
                  (new_name renames quiet k)) as [o Ho].
      { apply list_elem_of_fmap. exists (k, new_name renames quiet k).
        split; [done|]. apply Helem. split_and!; done. }
      rewrite Ho. cbn. apply source_elem, Helem in Ho as (Ho1 & _ & Ho2).
      by rewrite (Hinj _ _ Ho1 Hk Ho2).
  - intros n Hn. rewrite Hlook. rewrite decide_False.
    2:{ intros [Hn1 Hn2]. by apply (Hn n). }
    destruct (source (pending renames quiet items) n) as [o|] eqn:Ho; [|done].
    apply source_elem, Helem in Ho as (Ho1 & _ & Ho2). by apply Hn in Ho2.
Qed.

Lemma rename_regexp_parallel_witness :
  exists new_data : dict,
    (rename_regexp swap_ab false items_abc).1 = Found new_data
    /\ (forall k v, (k, v) ∈ items_abc ->
          new_data !! new_name swap_ab false k = Some v)
    /\ (forall n, (forall k, k ∈ items_abc.*1 ->
                     new_name swap_ab false k <> n) ->
          new_data !! n = None).
Proof.
  apply (rename_regexp_parallel swap_ab false items_abc).
  - compute_done.
  - intros k1 k2 H1 H2.
    repeat (apply elem_of_cons in H1 as [->|H1]);
      try (by apply elem_of_nil in H1);
      repeat (apply elem_of_cons in H2 as [->|H2]);
      try (by apply elem_of_nil in H2); vm_compute; congruence.
Defined.

(** A key that no rename of [rename_regexp] changes keeps its value,
    also when another key of the row is renamed to it: the value of the
    renamed key is lost. *)
Theorem rename_regexp_keeps renames quiet items k v :
  NoDup items.*1 ->
  (k, v) ∈ items ->
  Forall (fun r => sub r k = k) renames ->
  exists new_data : dict,
    (rename_regexp renames quiet items).1 = Found new_data
    /\ new_data !! k = Some v.
Proof.
  intros Hnd Hkv Hno.
  destruct (rename_regexp_lookup renames quiet items Hnd)
    as (new_data & Hrun & Hlook).
  exists new_data. split; [done|]. rewrite Hlook.
  assert (Hsame : new_name renames quiet k = k).
  { unfold new_name.
    assert (first_match renames k = None /\ last_match renames k = None)
      as [H1 H2].
    { clear -Hno. induction renames as [|r rest IH]; [done|].
      apply Forall_cons in Hno as [Hr Hno]. destruct (IH Hno) as [IH1 IH2].
      cbn [first_match last_match]. by rewrite IH1, IH2, Hr, decide_True. }
    rewrite H1, H2. by destruct quiet. }
  rewrite decide_True.
  - by apply elem_of_list_to_map.
  - split; [|done]. apply list_elem_of_fmap. by exists (k, v).
Qed.

Lemma rename_regexp_keeps_witness :
  exists new_data : dict,
    (rename_regexp a_to_c false items_abc).1 = Found new_data
    /\ new_data !! "c" = Some (PyInt 3).
Proof.
  apply (rename_regexp_keeps a_to_c false items_abc "c" (PyInt 3)).
  - compute_done.
  - right. right. left.
  - repeat constructor.
Defined.
